(** * MMcreateNewBuild.py: the tree filter of [make_build]

    A shallow embedding of [src/MMcreateNewBuild.py]: the exclusion patterns,
    [should_exclude], and [make_build] with its walk over the Kodi folder, the
    per-file decisions (exclusion pattern, [stat], size ceiling), the archive
    it writes and its handling of errors.

    The file system is a snapshot given as a tree; the effects of the
    script (what it prints, the archive at [zip_path], the output directory,
    the exception it may catch) are the fields of the run it returns. *)

From Stdlib Require Import List String Ascii ZArith Lia Bool.
Import ListNotations.

Set Warnings "-register-all".

Local Open Scope Z_scope.
Local Open Scope list_scope.

(* ================================================================== *)
(** ** Paths *)

(** A [pathlib] path relative to [kodi_path], as its components. *)
Definition path := list string.

(** [Path.as_posix] of a relative path: the components joined by a slash,
    and a dot for the empty path. *)
Definition as_posix (p : path) : string :=
  match p with
  | [] => "."%string
  | _ => String.concat "/" p
  end.

(** [d in names] on a Python list of strings. *)
Definition mem (d : string) (names : list string) : bool :=
  existsb (String.eqb d) names.

(* ================================================================== *)
(** ** The file system snapshot *)

(** What the script can learn of a file that is not a directory:
    [st_size] is the result of [file_path.stat().st_size], [None] when
    [stat] raises [OSError] (no permission, broken symbolic link);
    [readable] tells whether [zip_file.write] can read it. *)
Record file := mkFile { st_size : option Z; readable : bool }.

(** A directory lists its entries in the order of [os.scandir]. A directory
    that cannot be listed, or a symbolic link to a directory (which
    [os.walk] names in [dirs] and does not enter), is a [Dir []]: in each
    case the walk finds no file below it.

    [Output f] is the entry of the archive that the run itself writes, when
    [zip_path] lies inside the Kodi folder. It is no file of the folder
    before the run: the entry is in the listing only once the run has
    opened the archive (line 132), so the walk of a normal run meets it and
    the walk of a dry run does not. [f] is what [stat] and [zip_file.write]
    find of the archive when the walk gets to it. *)
Inductive node :=
| File (f : file)
| Dir (entries : list (string * node))
| Output (f : file).

(** The [dirs] and [files] of the triple [os.walk] yields for a directory.
    A file comes with what [stat] and [zip_file.write] will find at
    [current_dir / filename]. An [Output] entry left in a listing is the
    archive before it exists: it is not listed (see [listed]). *)
Fixpoint dirs_of (entries : list (string * node)) : list string :=
  match entries with
  | [] => []
  | (name, Dir _) :: es => name :: dirs_of es
  | (_, File _) :: es => dirs_of es
  | (_, Output _) :: es => dirs_of es
  end.

Fixpoint files_of (entries : list (string * node)) : list (string * file) :=
  match entries with
  | [] => []
  | (name, File f) :: es => (name, f) :: files_of es
  | (_, Dir _) :: es => files_of es
  | (_, Output _) :: es => files_of es
  end.

(** Every file of the tree below [top] with its path, in the order of a
    top-down walk that prunes nothing: the files of a directory, then its
    sub-directories in turn. *)
Fixpoint all_files (top : path) (n : node) {struct n} : list (path * file) :=
  match n with
  | File _ | Output _ => []
  | Dir entries =>
      map (fun e => (top ++ [fst e], snd e)) (files_of entries) ++
      (fix below (es : list (string * node)) : list (path * file) :=
         match es with
         | [] => []
         | (name, sub) :: es' => all_files (top ++ [name]) sub ++ below es'
         end) entries
  end.

(** Names as a directory listing gives them: not empty, not [.] or [..],
    and without a slash. *)
Fixpoint has_slash (s : string) : bool :=
  match s with
  | EmptyString => false
  | String c s' => Ascii.eqb c "/" || has_slash s'
  end.

Definition valid_name (s : string) : bool :=
  negb (String.eqb s "") && negb (String.eqb s ".") && negb (String.eqb s "..")
  && negb (has_slash s).

Fixpoint distinct (names : list string) : bool :=
  match names with
  | [] => true
  | x :: xs => negb (mem x xs) && distinct xs
  end.

(** A well-formed tree: in every directory the names are valid and no name
    is listed twice, the name of the archive of the run included. *)
Fixpoint wf_node (n : node) : bool :=
  match n with
  | File _ | Output _ => true
  | Dir entries =>
      forallb valid_name (map fst entries) && distinct (map fst entries) &&
      (fix each (es : list (string * node)) : bool :=
         match es with
         | [] => true
         | (_, sub) :: es' => wf_node sub && each es'
         end) entries
  end.

(** The tree as [os.walk] lists it: with the archive of the run as one more
    file once the run has opened it, and without it otherwise. *)
Definition listed_entries (listed : node -> node) (opened : bool) :
    list (string * node) -> list (string * node) :=
  fix go (es : list (string * node)) : list (string * node) :=
    match es with
    | [] => []
    | (name, sub) :: es' =>
        match sub with
        | File _ => (name, sub) :: go es'
        | Dir _ => (name, listed sub) :: go es'
        | Output f => if opened then (name, File f) :: go es' else go es'
        end
    end.

Fixpoint listed (opened : bool) (n : node) : node :=
  match n with
  | File f => File f
  | Dir entries => Dir (listed_entries (listed opened) opened entries)
  | Output f => Output f
  end.



(* ================================================================== *)
(** ** [fnmatch] *)

(** [fnmatch.fnmatchcase]: a star matches any run of characters (slashes
    too), a question mark any one character, any other character itself,
    and the whole name has to match. The bracket syntax is not modelled: an
    opening bracket stands for itself, as in [fnmatch] when no closing
    bracket follows; no pattern of [EXCLUDE_PATTERNS] has one. *)
Fixpoint glob (pat : list ascii) : list ascii -> bool :=
  match pat with
  | [] => fun name => match name with [] => true | _ :: _ => false end
  | c :: pat' =>
      if Ascii.eqb c "*" then
        fix star (name : list ascii) : bool :=
          glob pat' name ||
          match name with [] => false | _ :: name' => star name' end
      else if Ascii.eqb c "?" then
        fun name =>
          match name with [] => false | _ :: name' => glob pat' name' end
      else
        fun name =>
          match name with
          | [] => false
          | d :: name' => Ascii.eqb c d && glob pat' name'
          end
  end.

Definition fnmatchcase (name pat : string) : bool :=
  glob (list_ascii_of_string pat) (list_ascii_of_string name).

(** [os.path.normcase] of a POSIX host and, on ASCII names, of a Windows
    host: lower case, and slashes turned into backslashes. *)
Definition posix_normcase (s : string) : string := s.

Definition nt_lower (c : ascii) : ascii :=
  let n := nat_of_ascii c in
  if (Nat.leb 65 n && Nat.leb n 90)%bool then ascii_of_nat (n + 32)
  else if Ascii.eqb c "/" then "\"%char else c.

Fixpoint nt_normcase (s : string) : string :=
  match s with
  | EmptyString => EmptyString
  | String c s' => String (nt_lower c) (nt_normcase s')
  end.

(** Lines 79-93. *)
Definition EXCLUDE_PATTERNS : list string :=
  [ "addons/packages/*";
    "userdata/Thumbnails/*";
    "userdata/Database/Textures13.db";
    "temp/*";
    "cache/*";
    "logs/*";
    "*.log";
    "*.cache";
    "kodi.old.log" ]%string.

(* ================================================================== *)
(** ** Arguments, output and state *)

(** The namespace [parse_args] returns. [skip_large] has [type=int]: any
    integer, negative ones included. *)
Record Args := mkArgs {
  kodi : string;
  out : string;
  name : string;
  dry_run : bool;
  skip_large : Z
}.

(** Line 73, the default of [--skip-large]. *)
Definition default_skip_large : Z := 95 * 1024 * 1024.

Inductive exn :=
| OSError (filename : string).

(** The lines [make_build] prints, by the statement that prints them. The
    rendering of a size in MB (lines 124 and 174) is floating point and is
    left out: a line carries the integer it is rendered from, and printing
    it succeeds. The division raises [OverflowError] only for an integer
    beyond the range of a float, of more than 300 digits: no file size
    reaches it, and the ceiling is taken to be below it. *)
Inductive line :=
| L_not_found (kodi_path : string)                (* line 110 *)
| L_hint                                          (* line 111 *)
| L_rule                                          (* lines 121, 125, 188 *)
| L_source (kodi_path : string)                   (* line 122 *)
| L_output (dry : bool)                           (* line 123 *)
| L_max_size (skip_large : Z)                     (* line 124 *)
| L_skipped_large (rel_file_path : string) (file_size : Z)  (* line 174 *)
| L_total (n : nat)                               (* line 189 *)
| L_dry_header                                    (* line 192 *)
| L_item (f : string)                             (* line 194 *)
| L_dry_complete                                  (* line 195 *)
| L_success                                       (* line 197 *)
| L_unexpected (e : exn)                          (* line 200 *)
| L_deleting.                                     (* line 205 *)

(** The calls the loop makes for a file, recorded as they happen. *)
Inductive call :=
| Call_should_exclude (rel_file_path : string)    (* line 165 *)
| Call_stat (file_path : path)                    (* line 170 *)
| Call_zip_write (file_path : path) (arcname : string).  (* line 185 *)

(** The state [make_build] threads through its loop: the list
    [included_files]; [zip_file], [None] in a dry run and otherwise the
    members written so far to the archive open at [zip_path]; what was
    printed; the calls made. *)
Record state := mkState {
  included_files : list string;
  zip_file : option (list (path * string));
  stdout : list line;
  calls : list call
}.

Inductive result (A : Type) :=
| Val (a : A)
| Exc (e : exn).
Arguments Val {A} a.
Arguments Exc {A} e.

(** Computations over the state that may raise. *)
Definition M (A : Type) : Type := state -> result A * state.

Definition ret {A} (a : A) : M A := fun s => (Val a, s).

Definition raise {A} (e : exn) : M A := fun s => (Exc e, s).

Definition bind {A B} (m : M A) (k : A -> M B) : M B :=
  fun s =>
    match m s with
    | (Val a, s') => k a s'
    | (Exc e, s') => (Exc e, s')
    end.

Notation "x <- m ;; k" := (bind m (fun x => k))
  (at level 61, m at next level, right associativity).
Notation "m ;; k" := (bind m (fun _ => k))
  (at level 61, right associativity).

Definition print (l : line) : M unit :=
  fun s => (Val tt, mkState (included_files s) (zip_file s) (stdout s ++ [l]) (calls s)).

Definition record (c : call) : M unit :=
  fun s => (Val tt, mkState (included_files s) (zip_file s) (stdout s) (calls s ++ [c])).

Definition append_included (rel : string) : M unit :=
  fun s => (Val tt, mkState (included_files s ++ [rel]) (zip_file s) (stdout s) (calls s)).

Definition get_included : M (list string) :=
  fun s => (Val (included_files s), s).

(** A [for] loop: it stops at the first exception. *)
Fixpoint for_each {A} (xs : list A) (body : A -> M unit) : M unit :=
  match xs with
  | [] => ret tt
  | x :: xs' => body x ;; for_each xs' body
  end.

(** [zip_file.write(file_path, rel_file_path)]: it raises when the file
    cannot be read, and adds a member otherwise. *)
Definition zip_write (file_path : path) (arcname : string) (f : file) : M unit :=
  record (Call_zip_write file_path arcname) ;;
  if readable f then
    fun s =>
      (Val tt,
       mkState (included_files s)
               (option_map (fun members => members ++ [(file_path, arcname)]) (zip_file s))
               (stdout s) (calls s))
  else raise (OSError arcname).

(** [os.walk(top)], top-down and without following links. The generator
    yields [(top, dirs, files)] to the body of the loop, which hands [dirs]
    back as it left that list (the loop changes it in place at line 153),
    and the walk then enters the listed directories whose name is still in
    it. A top that is not a directory yields nothing. *)
Definition descend (walk : path -> node -> M unit) (top : path)
    (dirs : list string) : list (string * node) -> M unit :=
  fix go (es : list (string * node)) : M unit :=
    match es with
    | [] => ret tt
    | (name, sub) :: es' =>
        match sub with
        | File _ | Output _ => go es'
        | Dir _ =>
            (if mem name dirs then walk (top ++ [name]) sub else ret tt) ;;
            go es'
        end
    end.

Fixpoint os_walk (body : path -> list string -> list (string * file) -> M (list string))
    (top : path) (n : node) {struct n} : M unit :=
  match n with
  | File _ | Output _ => ret tt
  | Dir entries =>
      dirs <- body top (dirs_of entries) (files_of entries) ;;
      descend (os_walk body) top dirs entries
  end.

(* ================================================================== *)
(** ** The program *)

(** The environment of a run: what is at [args.kodi] ([None] when nothing
    is), whether [out_dir.mkdir] succeeds and whether the archive can be
    opened for writing at [zip_path]. No file is at [zip_path] before the
    run: its name carries the time stamp of the run. When [zip_path] lies
    inside the Kodi folder, the tree marks the place of the archive with
    an [Output] entry. The directories that [out_dir.mkdir] makes inside
    the folder hold no file of the folder; the tree lists them. *)
Record Env := mkEnv {
  source : option node;
  mkdir_ok : bool;
  zip_open_ok : bool
}.

(** How control leaves [make_build]. *)
Inductive outcome :=
| Returned                    (* the function returns [None] *)
| SysExit (code : Z)          (* [sys.exit(code)] *)
| Raised (e : exn).           (* an exception reaches the caller *)

(** A finished run: how it ended, the exception the handler of line 199
    caught if any, whether the output directory was made, the archive left
    at [zip_path] with its members ([None]: no such file), and the final
    state of the loop. *)
Record Run := mkRun {
  ended : outcome;
  caught : option exn;
  out_dir_made : bool;
  archive : option (list (path * string));
  final : state
}.

(** Line 151. *)
Definition dirs_to_keep : list string := ["userdata"; "addons"]%string.

(** Line 171: the guard of the size ceiling. *)
Definition too_large (args : Args) (file_size : Z) : bool :=
  (0 <? skip_large args) && (skip_large args <? file_size).

Section Host.

(** [os.path.normcase] of the host, which [fnmatch.fnmatch] applies to the
    name and to the pattern. *)
Variable normcase : string -> string.

Definition fnmatch (name pat : string) : bool :=
  fnmatchcase (normcase name) (normcase pat).

(** Lines 95-103. *)
Fixpoint should_exclude_in (patterns : list string) (rel_posix : string) : bool :=
  match patterns with
  | [] => false
  | pattern :: rest =>
      if fnmatch rel_posix pattern then true
      else should_exclude_in rest rel_posix
  end.

Definition should_exclude (rel_posix : string) : bool :=
  should_exclude_in EXCLUDE_PATTERNS rel_posix.

(** Lines 161-185, the body of the loop over [files]. An entry is a file
    name with what the file system holds under it. The [continue]
    statements are the branches that return at once. *)
Definition visit_file (args : Args) (current_dir : path)
    (entry : string * file) : M unit :=
  let filename := fst entry in
  let file_path := current_dir ++ [filename] in
  let rel_file_path := as_posix file_path in
  record (Call_should_exclude rel_file_path) ;;
  if should_exclude rel_file_path then ret tt
  else
    record (Call_stat file_path) ;;
    match st_size (snd entry) with
    | None => ret tt
    | Some file_size =>
        if too_large args file_size then
          if dry_run args then print (L_skipped_large rel_file_path file_size)
          else ret tt
        else
          append_included rel_file_path ;;
          if dry_run args then ret tt
          else zip_write file_path rel_file_path (snd entry)
    end.

(** Lines 137-185, the body of the loop over the walk. It returns [dirs]
    as the walk will find it: filtered at the root, untouched elsewhere.
    [current_dir] is below [kodi_path], so [relative_to] does not raise
    and the [continue] of line 145 is never taken. The assignment
    [files = []] of line 156 rebinds a local name before a [continue]. *)
Definition loop_body (args : Args) (current_dir : path) (dirs : list string)
    (files : list (string * file)) : M (list string) :=
  let rel_path := as_posix current_dir in
  if String.eqb rel_path "." then
    ret (filter (fun d => mem d dirs_to_keep) dirs)
  else
    for_each files (visit_file args current_dir) ;;
    ret dirs.

(** Lines 136-197, the body of the [try]. *)
Definition try_body (args : Args) (root : node) : M unit :=
  os_walk (loop_body args) [] root ;;
  print L_rule ;;
  included <- get_included ;;
  print (L_total (List.length included)) ;;
  if dry_run args then
    print L_dry_header ;;
    for_each included (fun f => print (L_item f)) ;;
    print L_dry_complete
  else
    print L_success.

(** Lines 121-125. *)
Definition banner (args : Args) : list line :=
  [L_rule; L_source (kodi args); L_output (dry_run args);
   L_max_size (skip_large args); L_rule].

(** The state after a [print] outside the loop. *)
Definition say (l : line) (s : state) : state := snd (print l s).

(** [zip_path.exists()]: the archive is at [zip_path] exactly when the run
    opened it. *)
Definition zip_path_exists (s : state) : bool :=
  match zip_file s with
  | Some _ => true
  | None => false
  end.

(** Lines 134-211: the [try] with its handler and its [finally].
    [zip_file.close()] is taken to succeed; it changes no member, so it
    leaves the state as it is, in the handler and in the [finally]. The
    handler catches [Exception] and does not raise again: after it the
    function returns. *)
Definition guarded (args : Args) (root : node) (s0 : state) : Run :=
  match try_body args root s0 with
  | (Val _, s) => mkRun Returned None true (zip_file s) s
  | (Exc e, s) =>
      let s1 := say (L_unexpected e) s in
      if negb (dry_run args) && zip_path_exists s1 then
        mkRun Returned (Some e) true None (say L_deleting s1)
      else
        mkRun Returned (Some e) true (zip_file s1) s1
  end.

(** Lines 106-211. The walk of a normal run starts after the archive is
    opened (line 132 before line 136), so it lists the archive where
    [zip_path] lies inside the Kodi folder; the walk of a dry run does
    not. *)
Definition make_build (args : Args) (env : Env) : Run :=
  match source env with
  | Some (Dir entries) =>
      if mkdir_ok env then
        let s0 := mkState [] None (banner args) [] in
        if dry_run args then guarded args (listed false (Dir entries)) s0
        else if zip_open_ok env then
          guarded args (listed true (Dir entries))
                  (mkState [] (Some []) (banner args) [])
        else mkRun (Raised (OSError (out args))) None true None s0
      else
        mkRun (Raised (OSError (out args))) None false None
              (mkState [] None [] [])
  | _ =>
      mkRun (SysExit 1) None false None
            (mkState [] None [L_not_found (kodi args); L_hint] [])
  end.

(* ================================================================== *)
(** ** The selection, as a filter *)

(** The first component of a path that has more than one: the top-level
    directory a file lies under. A file directly in the root has none. *)
Definition top_level (p : path) : option string :=
  match p with
  | d :: _ :: _ => Some d
  | _ => None
  end.

Definition allowed (p : path) : bool :=
  match top_level p with
  | Some d => mem d dirs_to_keep
  | None => false
  end.

(** The size ceiling is off: the guard of line 171 needs a positive one. *)
Definition ceiling_disabled (args : Args) : bool := skip_large args <=? 0.

(** The size was read and passes the ceiling. *)
Definition size_ok (args : Args) (f : file) : bool :=
  match st_size f with
  | Some file_size => negb (too_large args file_size)
  | None => false
  end.

(** The size was read and exceeds the ceiling. *)
Definition oversized (args : Args) (f : file) : bool :=
  match st_size f with
  | Some file_size => too_large args file_size
  | None => false
  end.

Definition accepted (args : Args) (pf : path * file) : bool :=
  negb (should_exclude (as_posix (fst pf))) && size_ok args (snd pf).

Definition skipped_large (args : Args) (pf : path * file) : bool :=
  negb (should_exclude (as_posix (fst pf))) && oversized args (snd pf).

Definition selection (args : Args) (root : node) : list string :=
  map (fun pf => as_posix (fst pf))
      (filter (fun pf => allowed (fst pf) && accepted args pf) (all_files [] root)).

Definition skip_line (pf : path * file) : line :=
  L_skipped_large (as_posix (fst pf))
                  (match st_size (snd pf) with Some z => z | None => 0 end).

(** The tree without the files whose size cannot be read. *)
Definition drop_entries (drop : node -> node) :
    list (string * node) -> list (string * node) :=
  fix go (es : list (string * node)) : list (string * node) :=
    match es with
    | [] => []
    | (name, sub) :: es' =>
        match sub with
        | File f =>
            match st_size f with
            | None => go es'
            | Some _ => (name, sub) :: go es'
            end
        | Dir _ => (name, drop sub) :: go es'
        | Output f =>
            match st_size f with
            | None => go es'
            | Some _ => (name, sub) :: go es'
            end
        end
    end.

Fixpoint drop_unstatable (n : node) : node :=
  match n with
  | File f => File f
  | Dir entries => Dir (drop_entries drop_unstatable entries)
  | Output f => Output f
  end.

End Host.

(* ================================================================== *)
(** ** The loop body on a file with its full path *)

(** [visit_file] as a function of the path of the file, to run it over the
    list of all files of a tree. *)
Definition visit (normcase : string -> string) (args : Args)
    (pf : path * file) : M unit :=
  let rel_file_path := as_posix (fst pf) in
  record (Call_should_exclude rel_file_path) ;;
  if should_exclude normcase rel_file_path then ret tt
  else
    record (Call_stat (fst pf)) ;;
    match st_size (snd pf) with
    | None => ret tt
    | Some file_size =>
        if too_large args file_size then
          if dry_run args then print (L_skipped_large rel_file_path file_size)
          else ret tt
        else
          append_included rel_file_path ;;
          if dry_run args then ret tt
          else zip_write (fst pf) rel_file_path (snd pf)
    end.

(** The calls the loop makes for the file at a path. *)
Definition call_for (file_path : path) (c : call) : Prop :=
  c = Call_should_exclude (as_posix file_path) \/
  c = Call_stat file_path \/
  c = Call_zip_write file_path (as_posix file_path).

(** The files of the tree the walk reaches. *)
Definition reached (root : node) : list (path * file) :=
  filter (fun pf => allowed (fst pf)) (all_files [] root).

(** Every file the run may put in the archive can be read. *)
Definition writable (root : node) : bool :=
  forallb (fun pf => match st_size (snd pf) with
                     | Some _ => readable (snd pf)
                     | None => true
                     end) (all_files [] root).

(** A run that gets to its walk and whose archive takes every file: the
    output directory can be made and, unless the run is a dry run, the
    archive can be opened and every file with a size can be read. *)
Definition fit (args : Args) (env : Env) (root : node) : bool :=
  mkdir_ok env && (dry_run args || (zip_open_ok env && writable root)).

(** Two states that differ in the recorded calls at most. *)
Definition same_effects (s1 s2 : state) : Prop :=
  included_files s1 = included_files s2 /\
  zip_file s1 = zip_file s2 /\
  stdout s1 = stdout s2.

(** The lines of the oversized files in what a run printed. *)
Definition is_skip_line (l : line) : bool :=
  match l with
  | L_skipped_large _ _ => true
  | _ => false
  end.

Definition has_size (pf : path * file) : bool :=
  match st_size (snd pf) with
  | Some _ => true
  | None => false
  end.

(** The state in which the run enters its [try]: nothing included, the
    archive open and empty unless the run is a dry run, the banner printed. *)
Definition start (args : Args) : state :=
  mkState [] (if dry_run args then None else Some []) (banner args) [].

(** The tree that the walk of a run lists. *)
Definition seen (args : Args) (root : node) : node :=
  listed (negb (dry_run args)) root.

(** [kodi_path.is_dir()]. *)
Definition is_dir (o : option node) : bool :=
  match o with
  | Some (Dir _) => true
  | _ => false
  end.

(** The lines of lines 188-197, after the walk. *)
Definition footer (args : Args) (included : list string) : list line :=
  [L_rule; L_total (List.length included)] ++
  (if dry_run args
   then [L_dry_header] ++ map L_item included ++ [L_dry_complete]
   else [L_success]).

(** The loop of the run over the files the walk reaches, from the state
    the run starts it in. *)
Definition walked (normcase : string -> string) (args : Args) (root : node)
    (s0 : state) : result unit * state :=
  for_each (reached root) (visit normcase args) s0.

(** A path that begins with a kept top-level directory. *)
Definition kept_top (top : path) : bool :=
  match top with
  | d :: _ => mem d dirs_to_keep
  | [] => false
  end.

(** The same arguments with [--dry-run] set or not. *)
Definition with_dry_run (b : bool) (args : Args) : Args :=
  mkArgs (kodi args) (out args) (name args) b (skip_large args).



(** Whether a character occurs in a string. *)
Fixpoint mentions (c : ascii) (s : string) : bool :=
  match s with
  | EmptyString => false
  | String d s' => Ascii.eqb c d || mentions c s'
  end.

(* ================================================================== *)
(** ** Sample trees and arguments *)

Definition plain (size : Z) : node := File (mkFile (Some size) true).

Definition sample_tree : node :=
  Dir [ ("kodi.log", plain 10);
        ("userdata", Dir [ ("keep.txt", plain 10);
                           ("Thumbnails", Dir [ ("x.tmp", plain 10) ]);
                           ("huge.bin", plain 200);
                           ("broken", File (mkFile None true)) ]);
        ("denied", Dir [ ("secret.txt", plain 10) ]);
        ("addons", Dir [ ("skin", Dir [ ("addon.xml", plain 10) ]) ]) ]%string.


Definition huge_tree : node :=
  Dir [ ("userdata", Dir [ ("huge.bin", plain 200) ]) ]%string.



Definition on_tree (root : node) : Env := mkEnv (Some root) true true.

Definition sample_args (dry : bool) (ceiling : Z) : Args :=
  mkArgs "kodi" "out" "GusFace_Build" dry ceiling.

(* ================================================================== *)
(** * Proofs *)

Arguments mem : simpl never.

(** ** The model on examples *)

Example EXCLUDE_PATTERNS_plain :
  forallb (fun pat => negb (mentions "[" pat) && negb (mentions "?" pat))
          EXCLUDE_PATTERNS = true.
Proof. reflexivity. Qed.

Example sample_selection :
  selection posix_normcase (sample_args false 0) sample_tree =
  ["userdata/keep.txt"; "userdata/huge.bin"; "addons/skin/addon.xml"]%string.
Proof. reflexivity. Qed.

Example log_suffix_by_host :
  should_exclude posix_normcase "userdata/KODI.LOG" = false /\
  should_exclude nt_normcase "userdata/KODI.LOG" = true.
Proof. split; reflexivity. Qed.

Example patterns_match_whole_path :
  should_exclude posix_normcase "cache/x" = true /\
  should_exclude posix_normcase "userdata/cache/x" = false.
Proof. split; reflexivity. Qed.

(** ** Induction on trees *)

Lemma node_induction (P : node -> Prop) :
  (forall f, P (File f)) ->
  (forall f, P (Output f)) ->
  (forall entries, Forall (fun e => P (snd e)) entries -> P (Dir entries)) ->
  forall n, P n.
Proof.
  intros HF HO HD. fix IH 1. intros [f | entries | f].
  - apply HF.
  - apply HD. revert entries. fix IHes 1. intros [| [nm sub] es].
    + constructor.
    + constructor; [apply IH | apply IHes].
  - apply HO.
Qed.

(** ** The monad *)

Lemma bind_ext {A B} (m m' : M A) (k k' : A -> M B) s :
  m s = m' s ->
  (forall a s', k a s' = k' a s') ->
  bind m k s = bind m' k' s.
Proof.
  intros Hm Hk. unfold bind. rewrite Hm.
  destruct (m' s) as [[a | e] s']; auto.
Qed.

Lemma bind_assoc {A B C} (m : M A) (k : A -> M B) (h : B -> M C) s :
  bind (bind m k) h s = bind m (fun a => bind (k a) h) s.
Proof.
  unfold bind. destruct (m s) as [[a | e] s']; reflexivity.
Qed.

Lemma bind_ret_r (m : M unit) s : bind m (fun _ => ret tt) s = m s.
Proof.
  unfold bind, ret. destruct (m s) as [[[] | e] s']; reflexivity.
Qed.

Lemma for_each_app {A} (xs ys : list A) (body : A -> M unit) s :
  for_each (xs ++ ys) body s = bind (for_each xs body) (fun _ => for_each ys body) s.
Proof.
  revert s. induction xs as [| x xs IH]; intros s; simpl.
  - reflexivity.
  - rewrite bind_assoc. apply bind_ext; auto.
Qed.

Lemma for_each_map {A B} (g : A -> B) (xs : list A) (body : B -> M unit) s :
  for_each (map g xs) body s = for_each xs (fun x => body (g x)) s.
Proof.
  revert s. induction xs as [| x xs IH]; intros s; simpl.
  - reflexivity.
  - apply bind_ext; auto.
Qed.

Lemma visit_file_visit normcase args current_dir entry s :
  visit_file normcase args current_dir entry s =
  visit normcase args (current_dir ++ [fst entry], snd entry) s.
Proof. reflexivity. Qed.
(** ** Paths below a kept directory *)

Lemma kept_top_not_root top :
  kept_top top = true -> String.eqb (as_posix top) "." = false.
Proof.
  destruct top as [| d rest]; simpl; [discriminate |].
  unfold mem, dirs_to_keep; simpl. intros H.
  apply orb_true_iff in H as [H | H].
  - apply String.eqb_eq in H; subst. destruct rest; reflexivity.
  - apply orb_true_iff in H as [H | H]; [| discriminate].
    apply String.eqb_eq in H; subst. destruct rest; reflexivity.
Qed.

Lemma kept_top_app top q : kept_top top = true -> kept_top (top ++ q) = true.
Proof. destruct top; simpl; [discriminate | auto]. Qed.

Lemma all_files_Dir top entries :
  all_files top (Dir entries) =
  map (fun e => (top ++ [fst e], snd e)) (files_of entries) ++
  flat_map (fun e => all_files (top ++ [fst e]) (snd e)) entries.
Proof.
  simpl. f_equal. induction entries as [| [nm sub] es IH]; simpl; [reflexivity |].
  now rewrite IH.
Qed.

Lemma mem_in d names : mem d names = true <-> In d names.
Proof.
  unfold mem. rewrite existsb_exists. split.
  - intros [x [Hin Heq]]. apply String.eqb_eq in Heq. now subst.
  - intros Hin. exists d. split; [assumption | apply String.eqb_refl].
Qed.

Section Flatten.

Variable normcase : string -> string.
Variable args : Args.

Local Abbreviation body := (loop_body normcase args).
Local Abbreviation step := (visit normcase args).

Lemma loop_body_below top dirs files s :
  kept_top top = true ->
  body top dirs files s =
  bind (for_each (map (fun e => (top ++ [fst e], snd e)) files) step)
       (fun _ => ret dirs) s.
Proof.
  intros Hk. unfold loop_body. rewrite (kept_top_not_root _ Hk).
  apply bind_ext; [| reflexivity].
  rewrite for_each_map. clear. revert s.
  induction files as [| e es IH]; intros s; simpl; [reflexivity |].
  apply bind_ext; [apply visit_file_visit | auto].
Qed.

Lemma descend_below (walk : path -> node -> M unit) top dirs entries :
  Forall (fun e => forall s, walk (top ++ [fst e]) (snd e) s =
                             for_each (all_files (top ++ [fst e]) (snd e)) step s)
         entries ->
  incl (dirs_of entries) dirs ->
  forall s,
    descend walk top dirs entries s =
    for_each (flat_map (fun e => all_files (top ++ [fst e]) (snd e)) entries) step s.
Proof.
  induction 1 as [| [nm sub] es Hsub Hes IH]; intros Hin s; simpl.
  - reflexivity.
  - destruct sub as [f | sub | f].
    + simpl. apply IH. exact Hin.
    + assert (Hm : mem nm dirs = true).
      { apply mem_in, Hin. simpl. now left. }
      rewrite Hm, for_each_app.
      apply bind_ext; [apply Hsub |].
      intros _ s'. apply IH. intros d Hd. apply Hin. simpl. now right.
    + simpl. apply IH. exact Hin.
Qed.

Lemma os_walk_below n :
  forall top s,
    kept_top top = true ->
    os_walk body top n s = for_each (all_files top n) step s.
Proof.
  induction n as [f | f | entries IH] using node_induction; intros top s Hk.
  - reflexivity.
  - reflexivity.
  - rewrite all_files_Dir, for_each_app.
    change (os_walk body top (Dir entries))
      with (bind (body top (dirs_of entries) (files_of entries))
                 (fun dirs => descend (os_walk body) top dirs entries)).
    etransitivity.
    { apply bind_ext; [apply loop_body_below; assumption | reflexivity]. }
    rewrite bind_assoc. apply bind_ext; [reflexivity |].
    intros _ s1. change (descend (os_walk body) top (dirs_of entries) entries s1 =
      for_each (flat_map (fun e => all_files (top ++ [fst e]) (snd e)) entries) step s1).
    apply descend_below; [| apply incl_refl].
    eapply Forall_impl; [| exact IH].
    intros e He s2. apply He. now apply kept_top_app.
Qed.

End Flatten.

(** ** Paths of the files of a tree *)

Lemma in_all_files_Dir top entries pf :
  In pf (all_files top (Dir entries)) <->
  (exists e, In e (files_of entries) /\ pf = (top ++ [fst e], snd e)) \/
  (exists e, In e entries /\ In pf (all_files (top ++ [fst e]) (snd e))).
Proof.
  rewrite all_files_Dir, in_app_iff, in_map_iff, in_flat_map.
  split; intros [[e [H1 H2]] | H]; auto; left; exists e; auto.
Qed.

Lemma all_files_below n :
  forall top pf,
    In pf (all_files top n) -> exists q, q <> [] /\ fst pf = top ++ q.
Proof.
  induction n as [f | f | entries IH] using node_induction; intros top pf Hin.
  - destruct Hin.
  - destruct Hin.
  - apply in_all_files_Dir in Hin as [[e [_ ->]] | [e [He Hin]]].
    + exists [fst e]. split; [discriminate | reflexivity].
    + rewrite Forall_forall in IH.
      destruct (IH e He _ _ Hin) as [q [Hq ->]].
      exists (fst e :: q). split; [discriminate |].
      now rewrite <- app_assoc.
Qed.

Lemma allowed_below nm sub pf :
  In pf (all_files [nm] sub) -> allowed (fst pf) = mem nm dirs_to_keep.
Proof.
  intros Hin. apply all_files_below in Hin as [q [Hq ->]].
  destruct q as [| x q]; [congruence | reflexivity].
Qed.

Lemma filter_all {A} (p : A -> bool) (l : list A) :
  (forall x, In x l -> p x = true) -> filter p l = l.
Proof.
  induction l as [| x l IH]; intros H; simpl; [reflexivity |].
  rewrite (H x (or_introl eq_refl)), IH; [reflexivity |].
  intros y Hy. apply H. now right.
Qed.

Lemma filter_none {A} (p : A -> bool) (l : list A) :
  (forall x, In x l -> p x = false) -> filter p l = [].
Proof.
  induction l as [| x l IH]; intros H; simpl; [reflexivity |].
  rewrite (H x (or_introl eq_refl)). apply IH.
  intros y Hy. apply H. now right.
Qed.

Lemma filter_flat_map {A B} (p : B -> bool) (g : A -> list B) (l : list A) :
  filter p (flat_map g l) = flat_map (fun x => filter p (g x)) l.
Proof.
  induction l as [| x l IH]; simpl; [reflexivity |].
  now rewrite filter_app, IH.
Qed.

Lemma mem_filter x (p : string -> bool) l :
  mem x (filter p l) = mem x l && p x.
Proof.
  apply eq_true_iff_eq.
  rewrite andb_true_iff, !mem_in, filter_In. reflexivity.
Qed.

Lemma reached_Dir entries :
  reached (Dir entries) =
  flat_map (fun e => if mem (fst e) dirs_to_keep
                     then all_files [fst e] (snd e) else []) entries.
Proof.
  unfold reached. rewrite all_files_Dir, filter_app, filter_flat_map.
  rewrite filter_none.
  - cbn [app]. apply flat_map_ext. intros e.
    destruct (mem (fst e) dirs_to_keep) eqn:Hk.
    + apply filter_all. intros pf Hin.
      now rewrite (allowed_below _ _ _ Hin).
    + apply filter_none. intros pf Hin.
      now rewrite (allowed_below _ _ _ Hin).
  - intros pf Hin. apply in_map_iff in Hin as [e [<- _]]. reflexivity.
Qed.

Section Root.

Variable normcase : string -> string.
Variable args : Args.

Local Abbreviation body := (loop_body normcase args).
Local Abbreviation step := (visit normcase args).

Lemma descend_root dirs entries :
  incl (dirs_of entries) dirs ->
  forall s,
    descend (os_walk body) [] (filter (fun d => mem d dirs_to_keep) dirs) entries s =
    for_each (flat_map (fun e => if mem (fst e) dirs_to_keep
                                 then all_files [fst e] (snd e) else []) entries)
             step s.
Proof.
  induction entries as [| [nm sub] es IH]; intros Hin s; simpl.
  - reflexivity.
  - destruct sub as [f | sub | f];
      [| | simpl; destruct (mem nm dirs_to_keep); apply IH; exact Hin].
    + simpl. destruct (mem nm dirs_to_keep); apply IH; exact Hin.
    + assert (Hm : mem nm dirs = true).
      { apply mem_in, Hin. simpl. now left. }
      assert (Hes : incl (dirs_of es) dirs).
      { intros d Hd. apply Hin. simpl. now right. }
      rewrite mem_filter, Hm. simpl andb.
      destruct (mem nm dirs_to_keep) eqn:Hk.
      * rewrite for_each_app. apply bind_ext.
        -- apply os_walk_below. simpl. exact Hk.
        -- intros _ s'. now apply IH.
      * simpl app. unfold bind, ret. now apply IH.
Qed.

(** The walk of [make_build] runs the loop body over the files below the
    kept top-level directories, in the order of the tree. *)
Lemma os_walk_root entries s :
  os_walk body [] (Dir entries) s = for_each (reached (Dir entries)) step s.
Proof.
  rewrite reached_Dir.
  change (os_walk body [] (Dir entries) s)
    with (descend (os_walk body) [] (filter (fun d => mem d dirs_to_keep) (dirs_of entries))
                  entries s).
  apply descend_root, incl_refl.
Qed.

End Root.

(** ** One file *)

Ltac run_visit :=
  unfold visit, bind, record, print, append_included, zip_write, ret, raise,
    accepted, skipped_large, size_ok, oversized, skip_line, has_size;
  simpl fst; simpl snd.

Section Loop.

Variable normcase : string -> string.
Variable args : Args.

Local Abbreviation step := (visit normcase args).
Local Abbreviation rel := (fun pf : path * file => as_posix (fst pf)).

Lemma visit_included pf s :
  included_files (snd (step pf s)) =
  included_files s ++ (if accepted normcase args pf then [rel pf] else []).
Proof.
  destruct pf as [p f]. run_visit.
  destruct (should_exclude normcase (as_posix p)); simpl;
    [now rewrite app_nil_r |].
  destruct (st_size f) as [z |]; simpl; [| now rewrite app_nil_r].
  destruct (too_large args z); simpl.
  - destruct (dry_run args); simpl; now rewrite app_nil_r.
  - destruct (dry_run args); simpl; [reflexivity |].
    destruct (readable f); reflexivity.
Qed.

Lemma visit_stdout pf s :
  stdout (snd (step pf s)) =
  stdout s ++ (if dry_run args && skipped_large normcase args pf
               then [skip_line pf] else []).
Proof.
  destruct pf as [p f]. run_visit.
  destruct (should_exclude normcase (as_posix p)); simpl;
    [now rewrite andb_false_r, app_nil_r |].
  destruct (st_size f) as [z |]; simpl; [| now rewrite andb_false_r, app_nil_r].
  destruct (too_large args z); simpl.
  - destruct (dry_run args); simpl; [reflexivity | now rewrite app_nil_r].
  - rewrite andb_false_r, app_nil_r.
    destruct (dry_run args); simpl; [reflexivity |].
    destruct (readable f); reflexivity.
Qed.

Lemma visit_zip_exists pf s :
  zip_path_exists (snd (step pf s)) = zip_path_exists s.
Proof.
  destruct pf as [p f]. run_visit. unfold zip_path_exists.
  destruct (should_exclude normcase (as_posix p)); simpl; [reflexivity |].
  destruct (st_size f) as [z |]; simpl; [| reflexivity].
  destruct (too_large args z); simpl.
  - destruct (dry_run args); reflexivity.
  - destruct (dry_run args); simpl; [reflexivity |].
    destruct (readable f); simpl; [| reflexivity].
    destruct (zip_file s); reflexivity.
Qed.

Lemma visit_val pf s :
  dry_run args = true \/ accepted normcase args pf = false \/
  readable (snd pf) = true ->
  fst (step pf s) = Val tt.
Proof.
  destruct pf as [p f]. run_visit.
  destruct (should_exclude normcase (as_posix p)); simpl; [reflexivity |].
  destruct (st_size f) as [z |]; simpl; [| reflexivity].
  destruct (too_large args z); simpl.
  - destruct (dry_run args); reflexivity.
  - intros [-> | [H | ->]]; try reflexivity; try discriminate.
    destruct (dry_run args); reflexivity.
Qed.

Lemma visit_calls pf s c :
  In c (calls (snd (step pf s))) -> In c (calls s) \/ call_for (fst pf) c.
Proof.
  destruct pf as [p f]. run_visit. unfold call_for.
  destruct (should_exclude normcase (as_posix p)); simpl.
  { rewrite in_app_iff. simpl. intuition auto. }
  destruct (st_size f) as [z |]; simpl.
  2:{ rewrite !in_app_iff. simpl. intuition auto. }
  destruct (too_large args z); simpl.
  - destruct (dry_run args); simpl; rewrite !in_app_iff; simpl; intuition auto.
  - destruct (dry_run args); simpl.
    + rewrite !in_app_iff; simpl; intuition auto.
    + destruct (readable f); simpl; rewrite !in_app_iff; simpl; intuition auto.
Qed.

Lemma visit_unstatable pf s :
  has_size pf = false ->
  fst (step pf s) = Val tt /\ same_effects (snd (step pf s)) s.
Proof.
  destruct pf as [p f]. run_visit. unfold same_effects.
  destruct (should_exclude normcase (as_posix p)); simpl; [auto |].
  destruct (st_size f) as [z |]; simpl; [discriminate | auto].
Qed.

Lemma visit_same_effects pf s1 s2 :
  same_effects s1 s2 ->
  fst (step pf s1) = fst (step pf s2) /\
  same_effects (snd (step pf s1)) (snd (step pf s2)).
Proof.
  intros (Hi & Hz & Ho). destruct pf as [p f]. run_visit. unfold same_effects.
  destruct (should_exclude normcase (as_posix p)); simpl; [auto |].
  destruct (st_size f) as [z |]; simpl; [| auto].
  destruct (too_large args z); simpl.
  - destruct (dry_run args); simpl; rewrite ?Ho; auto.
  - destruct (dry_run args); simpl; rewrite ?Hi; auto.
    destruct (readable f); simpl; rewrite ?Hz; auto.
Qed.

(** ** The loop over a list of files *)

Lemma for_each_cons (x : path * file) xs s :
  for_each (x :: xs) step s =
  match fst (step x s) with
  | Val _ => for_each xs step (snd (step x s))
  | Exc e => (Exc e, snd (step x s))
  end.
Proof.
  simpl. unfold bind. destruct (step x s) as [[a | e] s']; reflexivity.
Qed.

(** What the loop appends to [included_files] is an initial part of the
    accepted files, and all of them when no exception stops it. *)
Lemma for_each_included xs :
  forall s,
    exists l1 l2,
      map rel (filter (accepted normcase args) xs) = l1 ++ l2 /\
      included_files (snd (for_each xs step s)) = included_files s ++ l1 /\
      (forall u, fst (for_each xs step s) = Val u -> l2 = []).
Proof.
  induction xs as [| x xs IH]; intros s.
  - exists [], []. simpl. rewrite app_nil_r. auto.
  - rewrite for_each_cons. pose proof (visit_included x s) as Hx.
    destruct (fst (step x s)) as [a | e]; simpl filter.
    + destruct (IH (snd (step x s))) as (l1 & l2 & Heq & Hinc & Hval).
      rewrite Hinc, Hx, <- app_assoc.
      destruct (accepted normcase args x); simpl.
      * exists (rel x :: l1), l2. simpl. rewrite Heq. auto.
      * exists l1, l2. auto.
    + simpl snd. rewrite Hx.
      destruct (accepted normcase args x); simpl.
      * exists [rel x], (map rel (filter (accepted normcase args) xs)).
        repeat split; [discriminate].
      * exists [], (map rel (filter (accepted normcase args) xs)).
        repeat split; [discriminate].
Qed.

(** A dry run never raises; it prints a line for each oversized file and
    leaves [zip_file] alone. *)
Lemma for_each_dry xs :
  dry_run args = true ->
  forall s,
    fst (for_each xs step s) = Val tt /\
    stdout (snd (for_each xs step s)) =
      stdout s ++ map skip_line (filter (skipped_large normcase args) xs) /\
    zip_path_exists (snd (for_each xs step s)) = zip_path_exists s.
Proof.
  intros Hdry. induction xs as [| x xs IH]; intros s.
  - simpl. rewrite app_nil_r. auto.
  - rewrite for_each_cons, (visit_val x s) by auto.
    destruct (IH (snd (step x s))) as (Hv & Ho & Hz).
    rewrite Hv, Ho, Hz, visit_stdout, visit_zip_exists, Hdry, <- app_assoc.
    simpl. destruct (skipped_large normcase args x); auto.
Qed.

(** The loop runs to its end when every accepted file can be read. *)
Lemma for_each_val xs :
  (forall pf, In pf xs -> has_size pf = true -> readable (snd pf) = true) ->
  forall s, fst (for_each xs step s) = Val tt.
Proof.
  induction xs as [| x xs IH]; intros Hr s.
  - reflexivity.
  - rewrite for_each_cons, visit_val.
    + apply IH. intros pf Hin. apply Hr. now right.
    + destruct (has_size x) eqn:Hs.
      * right. right. apply Hr; [now left | assumption].
      * right. left. unfold accepted, size_ok. unfold has_size in Hs.
        destruct (st_size (snd x)); [discriminate | apply andb_false_r].
Qed.


(** Every call the loop records is a call for one of its files. *)
Lemma for_each_calls xs :
  forall s c,
    In c (calls (snd (for_each xs step s))) ->
    In c (calls s) \/ exists pf, In pf xs /\ call_for (fst pf) c.
Proof.
  induction xs as [| x xs IH]; intros s c Hc.
  - now left.
  - rewrite for_each_cons in Hc.
    assert (Hx : In c (calls (snd (step x s))) ->
                 In c (calls s) \/ exists pf, In pf (x :: xs) /\ call_for (fst pf) c).
    { intros H. apply visit_calls in H as [H | H]; [now left |].
      right. exists x. split; [now left | assumption]. }
    destruct (fst (step x s)); [| now apply Hx].
    apply IH in Hc as [Hc | [pf [Hin Hcf]]]; [now apply Hx |].
    right. exists pf. split; [now right | assumption].
Qed.

(** The files whose size cannot be read leave no effect: the loop over
    all files and the loop over those with a size end alike. *)
Lemma for_each_unstatable xs :
  forall s1 s2,
    same_effects s1 s2 ->
    fst (for_each xs step s1) = fst (for_each (filter has_size xs) step s2) /\
    same_effects (snd (for_each xs step s1))
                 (snd (for_each (filter has_size xs) step s2)).
Proof.
  induction xs as [| x xs IH]; intros s1 s2 Hs.
  - simpl. auto.
  - rewrite for_each_cons. simpl filter.
    destruct (has_size x) eqn:Hx.
    + rewrite for_each_cons.
      destruct (visit_same_effects x s1 s2 Hs) as [Hr Hs'].
      rewrite <- Hr. destruct (fst (step x s1)); [now apply IH | auto].
    + destruct (visit_unstatable x s1 Hx) as [-> Hs'].
      apply IH. destruct Hs' as (A & B & C), Hs as (A' & B' & C').
      unfold same_effects. rewrite A, B, C. auto.
Qed.

End Loop.

(** ** Well-formed trees: paths and their strings *)

Lemma has_slash_app a b : has_slash (a ++ b) = has_slash a || has_slash b.
Proof.
  induction a as [| c a IH]; simpl; [reflexivity |].
  now rewrite IH, orb_assoc.
Qed.

Lemma has_slash_join a b : has_slash (a ++ String "/" b) = true.
Proof.
  rewrite has_slash_app. simpl. apply orb_true_r.
Qed.

Lemma split_at_slash x :
  forall y a b,
    has_slash x = false -> has_slash y = false ->
    (x ++ String "/" a = y ++ String "/" b)%string -> x = y /\ a = b.
Proof.
  induction x as [| c x IH]; intros [| d y] a b Hx Hy Heq; simpl in *.
  - injection Heq as ->. auto.
  - injection Heq as <- _. simpl in Hy. discriminate.
  - injection Heq as -> _. simpl in Hx. discriminate.
  - injection Heq as -> Heq.
    apply orb_false_iff in Hx as [_ Hx]. apply orb_false_iff in Hy as [_ Hy].
    destruct (IH _ _ _ Hx Hy Heq) as [-> ->]. auto.
Qed.

Lemma valid_name_no_slash s : valid_name s = true -> has_slash s = false.
Proof.
  unfold valid_name. rewrite !andb_true_iff, !negb_true_iff. tauto.
Qed.

Lemma valid_name_not_dot s : valid_name s = true -> s <> "."%string.
Proof.
  unfold valid_name. rewrite !andb_true_iff, !negb_true_iff.
  intros [[[_ H] _] _]. now apply String.eqb_neq.
Qed.

Lemma concat_cons2 x y r :
  String.concat "/" (x :: y :: r) = (x ++ String "/" (String.concat "/" (y :: r)))%string.
Proof. reflexivity. Qed.

Lemma as_posix_inj p :
  forall q,
    forallb valid_name p = true -> forallb valid_name q = true ->
    as_posix p = as_posix q -> p = q.
Proof.
  induction p as [| x r IH]; intros [| y r'] Hp Hq Heq.
  - reflexivity.
  - exfalso. simpl in Hq. apply andb_true_iff in Hq as [Hy _].
    destruct r' as [| z r'].
    + simpl in Heq. now apply (valid_name_not_dot y).
    + unfold as_posix in Heq. rewrite concat_cons2 in Heq.
      pose proof (has_slash_join y (String.concat "/" (z :: r'))) as H.
      rewrite <- Heq in H. discriminate.
  - exfalso. simpl in Hp. apply andb_true_iff in Hp as [Hx _].
    destruct r as [| z r].
    + simpl in Heq. now apply (valid_name_not_dot x).
    + unfold as_posix in Heq. rewrite concat_cons2 in Heq.
      pose proof (has_slash_join x (String.concat "/" (z :: r))) as H.
      rewrite Heq in H. discriminate.
  - simpl in Hp, Hq.
    apply andb_true_iff in Hp as [Hx Hr]. apply andb_true_iff in Hq as [Hy Hr'].
    pose proof (valid_name_no_slash _ Hx) as Sx.
    pose proof (valid_name_no_slash _ Hy) as Sy.
    unfold as_posix in Heq.
    destruct r as [| z r], r' as [| z' r'].
    + simpl in Heq. now subst.
    + exfalso. rewrite concat_cons2 in Heq.
      change (String.concat "/" [x]) with x in Heq.
      rewrite Heq, has_slash_join in Sx. discriminate.
    + exfalso. rewrite concat_cons2 in Heq.
      change (String.concat "/" [y]) with y in Heq.
      rewrite <- Heq, has_slash_join in Sy. discriminate.
    + rewrite !concat_cons2 in Heq.
      destruct (split_at_slash _ _ _ _ Sx Sy Heq) as [-> Hrest].
      f_equal. apply IH; assumption.
Qed.

Lemma wf_Dir entries :
  wf_node (Dir entries) = true <->
  forallb valid_name (map fst entries) = true /\
  distinct (map fst entries) = true /\
  Forall (fun e => wf_node (snd e) = true) entries.
Proof.
  simpl. rewrite !andb_true_iff.
  assert (H : (fix each (es : list (string * node)) : bool :=
                 match es with
                 | [] => true
                 | (_, sub) :: es' => wf_node sub && each es'
                 end) entries = true <->
              Forall (fun e => wf_node (snd e) = true) entries).
  { induction entries as [| [nm sub] es IH].
    - split; auto.
    - rewrite andb_true_iff, IH. split.
      + intros [A B]. now constructor.
      + intros H. inversion H; subst. auto. }
  rewrite H. tauto.
Qed.

Lemma files_of_in nm f entries :
  In (nm, f) (files_of entries) <-> In (nm, File f) entries.
Proof.
  induction entries as [| [nm' [f' | sub | f']] es IH]; simpl.
  - tauto.
  - rewrite IH. split; intros [H | H]; auto; left; congruence.
  - rewrite IH. split; [auto | intros [H | H]; [discriminate | auto]].
  - rewrite IH. split; [auto | intros [H | H]; [discriminate | auto]].
Qed.

Lemma distinct_functional {V} (l : list (string * V)) k v v' :
  distinct (map fst l) = true -> In (k, v) l -> In (k, v') l -> v = v'.
Proof.
  induction l as [| [k0 v0] l IH]; simpl; [tauto |].
  rewrite andb_true_iff, negb_true_iff. intros [Hk Hd] [H | H] [H' | H'].
  - congruence.
  - injection H as -> ->. exfalso.
    assert (mem k (map fst l) = true); [| congruence].
    apply mem_in, in_map_iff. now exists (k, v').
  - injection H' as -> ->. exfalso.
    assert (mem k (map fst l) = true); [| congruence].
    apply mem_in, in_map_iff. now exists (k, v).
  - now apply IH.
Qed.

Lemma all_files_valid n :
  forall top pf,
    wf_node n = true -> In pf (all_files top n) ->
    exists q, fst pf = top ++ q /\ forallb valid_name q = true.
Proof.
  induction n as [f | f | entries IH] using node_induction; intros top pf Hwf Hin.
  - destruct Hin.
  - destruct Hin.
  - apply wf_Dir in Hwf as (Hv & _ & Hsub).
    rewrite forallb_forall in Hv. rewrite Forall_forall in IH, Hsub.
    apply in_all_files_Dir in Hin as [[[nm f] [He ->]] | [e [He Hin]]].
    + exists [nm]. split; [reflexivity |]. simpl.
      rewrite Hv; [reflexivity |].
      apply in_map_iff. exists (nm, File f). split; [reflexivity |].
      now apply files_of_in.
    + destruct (IH e He _ _ (Hsub e He) Hin) as [q [-> Hq]].
      exists (fst e :: q). split; [now rewrite <- app_assoc |].
      simpl. rewrite Hq, Hv; [reflexivity |]. now apply in_map.
Qed.

Lemma all_files_functional n :
  forall top p f f',
    wf_node n = true ->
    In (p, f) (all_files top n) -> In (p, f') (all_files top n) -> f = f'.
Proof.
  induction n as [f0 | f0 | entries IH] using node_induction;
    intros top p f f' Hwf Hin Hin'.
  - destruct Hin.
  - destruct Hin.
  - apply wf_Dir in Hwf as (_ & Hd & Hsub).
    rewrite Forall_forall in IH, Hsub.
    apply in_all_files_Dir in Hin as [[[nm g] [He Heq]] | [[nm sub] [He Hin]]];
      apply in_all_files_Dir in Hin' as [[[nm' g'] [He' Heq']] | [[nm' sub'] [He' Hin']]];
      simpl in *.
    + injection Heq as -> ->. injection Heq' as Hp ->.
      apply app_inv_head in Hp. injection Hp as ->.
      apply files_of_in in He, He'.
      pose proof (distinct_functional _ _ _ _ Hd He He') as H. congruence.
    + exfalso. injection Heq as -> ->.
      apply all_files_below in Hin' as [q [Hq Hp]]. simpl in Hp.
      rewrite <- app_assoc in Hp. apply app_inv_head in Hp.
      injection Hp as _ Hp. now subst.
    + exfalso. injection Heq' as -> ->.
      apply all_files_below in Hin as [q [Hq Hp]]. simpl in Hp.
      rewrite <- app_assoc in Hp. apply app_inv_head in Hp.
      injection Hp as _ Hp. now subst.
    + pose proof (all_files_below _ _ _ Hin) as [q [_ Hp]].
      pose proof (all_files_below _ _ _ Hin') as [q' [_ Hp']].
      simpl in Hp, Hp'. rewrite Hp', <- !app_assoc in Hp.
      apply app_inv_head in Hp. injection Hp as Hnm _. subst nm'.
      pose proof (distinct_functional _ _ _ _ Hd He He') as ->.
      exact (IH _ He' _ _ _ _ (Hsub _ He') Hin Hin').
Qed.

(** In a well-formed tree the string of a path names one file. *)
Lemma rel_path_names_one_file root p f p' f' :
  wf_node root = true ->
  In (p, f) (all_files [] root) -> In (p', f') (all_files [] root) ->
  as_posix p' = as_posix p -> p' = p /\ f' = f.
Proof.
  intros Hwf Hin Hin' Heq.
  destruct (all_files_valid _ _ _ Hwf Hin) as [q [Hq Hv]].
  destruct (all_files_valid _ _ _ Hwf Hin') as [q' [Hq' Hv']].
  simpl in Hq, Hq'. subst q q'.
  pose proof (as_posix_inj _ _ Hv' Hv Heq) as ->.
  split; [reflexivity |]. exact (all_files_functional _ _ _ _ _ Hwf Hin' Hin).
Qed.

(** ** The tree as the walk lists it *)

Lemma listed_Dir opened entries :
  listed opened (Dir entries) = Dir (listed_entries (listed opened) opened entries).
Proof. reflexivity. Qed.


Lemma files_of_listed_false entries :
  files_of (listed_entries (listed false) false entries) = files_of entries.
Proof.
  induction entries as [| [nm [f | sub | f]] es IH]; simpl; congruence.
Qed.

(** A dry run lists the files of the folder. *)
Lemma all_files_listed_false n :
  forall top, all_files top (listed false n) = all_files top n.
Proof.
  induction n as [f | f | entries IH] using node_induction; intros top.
  - reflexivity.
  - reflexivity.
  - rewrite listed_Dir, !all_files_Dir, files_of_listed_false. f_equal.
    induction IH as [| [nm [f | sub | f]] es Hsub _ IHes]; simpl.
    + reflexivity.
    + exact IHes.
    + simpl in Hsub. now rewrite Hsub, IHes.
    + exact IHes.
Qed.

Lemma files_of_listed_true entries e :
  In e (files_of entries) ->
  In e (files_of (listed_entries (listed true) true entries)).
Proof.
  induction entries as [| [nm [f | sub | f]] es IH]; simpl; intuition auto.
Qed.

(** Every run lists the files of the folder. *)
Lemma all_files_listed opened n :
  forall top pf,
    In pf (all_files top n) -> In pf (all_files top (listed opened n)).
Proof.
  destruct opened; [| intros top pf; now rewrite all_files_listed_false].
  induction n as [f | f | entries IH] using node_induction; intros top pf Hin.
  - destruct Hin.
  - destruct Hin.
  - rewrite listed_Dir. apply in_all_files_Dir.
    apply in_all_files_Dir in Hin as [[e [He ->]] | [e [He Hin]]].
    + left. exists e. split; [now apply files_of_listed_true | reflexivity].
    + right. rewrite Forall_forall in IH. specialize (IH e He _ _ Hin).
      destruct e as [nm [f | sub | f]]; try (destruct Hin; fail).
      exists (nm, listed true (Dir sub)). split; [| exact IH].
      clear - He. induction entries as [| [nm' [f' | sub' | f']] es IHes];
        simpl in *; [tauto | | |].
      * destruct He as [He | He]; [discriminate | right; auto].
      * destruct He as [He | He]; [left; congruence | right; auto].
      * destruct He as [He | He]; [discriminate | right; auto].
Qed.

Lemma listed_names opened entries nm :
  In nm (map fst (listed_entries (listed opened) opened entries)) ->
  In nm (map fst entries).
Proof.
  induction entries as [| [nm' [f | sub | f]] es IH]; simpl; try tauto.
  destruct opened; simpl; tauto.
Qed.

Lemma wf_listed opened n :
  wf_node n = true -> wf_node (listed opened n) = true.
Proof.
  induction n as [f | f | entries IH] using node_induction; intros Hwf.
  - reflexivity.
  - reflexivity.
  - rewrite listed_Dir. apply wf_Dir in Hwf as (Hv & Hd & Hsub). apply wf_Dir.
    split; [| split].
    + apply forallb_forall. intros nm Hin. apply listed_names in Hin.
      rewrite forallb_forall in Hv. now apply Hv.
    + clear - Hd. induction entries as [| [nm sub] es IHes]; [reflexivity |].
      simpl in Hd. apply andb_true_iff in Hd as [Hn Hd].
      apply negb_true_iff in Hn. specialize (IHes Hd).
      assert (Hnew : mem nm (map fst (listed_entries (listed opened) opened es)) = false).
      { destruct (mem nm (map fst (listed_entries (listed opened) opened es))) eqn:Hm;
          [| reflexivity].
        apply mem_in, listed_names, mem_in in Hm. congruence. }
      destruct sub as [f | sub | f]; simpl; rewrite ?Hnew, ?IHes; try reflexivity.
      destruct opened; simpl; rewrite ?Hnew, ?IHes; reflexivity.
    + clear - IH Hsub. induction entries as [| [nm sub] es IHes]; [constructor |].
      inversion IH; subst. inversion Hsub; subst. specialize (IHes H2 H4).
      destruct sub as [f | sub | f]; simpl.
      * constructor; [reflexivity | exact IHes].
      * constructor; [now apply H1 | exact IHes].
      * destruct opened; [constructor; [reflexivity | exact IHes] | exact IHes].
Qed.

(** Dropping the files whose size cannot be read and listing commute. *)
Lemma listed_drop opened n :
  listed opened (drop_unstatable n) = drop_unstatable (listed opened n).
Proof.
  induction n as [f | f | entries IH] using node_induction.
  - reflexivity.
  - reflexivity.
  - change (drop_unstatable (Dir entries))
      with (Dir (drop_entries drop_unstatable entries)).
    rewrite !listed_Dir.
    change (drop_unstatable (Dir (listed_entries (listed opened) opened entries)))
      with (Dir (drop_entries drop_unstatable
                   (listed_entries (listed opened) opened entries))).
    f_equal.
    induction IH as [| [nm [f | sub | f]] es Hsub _ IHes]; simpl.
    + reflexivity.
    + destruct (st_size f) eqn:Hf; simpl; rewrite ?Hf; now rewrite IHes.
    + simpl in Hsub. now rewrite Hsub, IHes.
    + destruct (st_size f) eqn:Hf, opened; simpl; rewrite ?Hf; now rewrite IHes.
Qed.


(** ** The whole run *)

Lemma for_each_print (items : list string) s :
  for_each items (fun f => print (L_item f)) s =
  (Val tt, mkState (included_files s) (zip_file s)
                   (stdout s ++ map L_item items) (calls s)).
Proof.
  revert s. induction items as [| f items IH]; intros s; simpl.
  - rewrite app_nil_r. now destruct s.
  - unfold bind, print at 1. rewrite IH. simpl.
    now rewrite <- app_assoc.
Qed.

Lemma print_eq l s :
  print l s =
  (Val tt, mkState (included_files s) (zip_file s) (stdout s ++ [l]) (calls s)).
Proof. reflexivity. Qed.

Section Run.

Variable normcase : string -> string.
Variable args : Args.

Local Abbreviation body := (loop_body normcase args).
Local Abbreviation step := (visit normcase args).
Local Abbreviation rel := (fun pf : path * file => as_posix (fst pf)).

Lemma os_walk_reached root s :
  os_walk body [] root s = for_each (reached root) step s.
Proof.
  destruct root as [f | entries | f];
    [reflexivity | apply os_walk_root | reflexivity].
Qed.

Lemma try_body_spec root s0 :
  try_body normcase args root s0 =
  match fst (walked normcase args root s0) with
  | Val _ =>
      let s := snd (walked normcase args root s0) in
      (Val tt, mkState (included_files s) (zip_file s)
                       (stdout s ++ footer args (included_files s)) (calls s))
  | Exc e => (Exc e, snd (walked normcase args root s0))
  end.
Proof.
  unfold try_body, walked. unfold bind at 1. rewrite os_walk_reached.
  destruct (for_each (reached root) step s0) as [[[] | e] s]; [| reflexivity].
  unfold footer, bind, get_included. rewrite !print_eq.
  destruct (dry_run args); rewrite !print_eq; cbn [included_files].
  - rewrite for_each_print, print_eq. simpl. now rewrite <- !app_assoc.
  - simpl. now rewrite <- !app_assoc.
Qed.

Lemma guarded_val root s0 :
  fst (walked normcase args root s0) = Val tt ->
  guarded normcase args root s0 =
  let s := snd (walked normcase args root s0) in
  mkRun Returned None true (zip_file s)
        (mkState (included_files s) (zip_file s)
                 (stdout s ++ footer args (included_files s)) (calls s)).
Proof.
  intros H. unfold guarded. rewrite try_body_spec, H. reflexivity.
Qed.

Lemma guarded_exc root s0 e :
  fst (walked normcase args root s0) = Exc e ->
  guarded normcase args root s0 =
  let s1 := say (L_unexpected e) (snd (walked normcase args root s0)) in
  if negb (dry_run args) && zip_path_exists s1
  then mkRun Returned (Some e) true None (say L_deleting s1)
  else mkRun Returned (Some e) true (zip_file s1) s1.
Proof.
  intros H. unfold guarded. rewrite try_body_spec, H. reflexivity.
Qed.

Lemma walked_cases root s0 :
  fst (walked normcase args root s0) = Val tt \/
  exists e, fst (walked normcase args root s0) = Exc e.
Proof.
  destruct (fst (walked normcase args root s0)) as [[] | e]; eauto.
Qed.

Lemma guarded_ended root s0 : ended (guarded normcase args root s0) = Returned.
Proof.
  destruct (walked_cases root s0) as [H | [e H]].
  - now rewrite guarded_val.
  - rewrite (guarded_exc _ _ _ H). simpl.
    now destruct (negb (dry_run args) && _).
Qed.

Lemma guarded_caught root s0 :
  caught (guarded normcase args root s0) =
  match fst (walked normcase args root s0) with
  | Val _ => None
  | Exc e => Some e
  end.
Proof.
  destruct (walked_cases root s0) as [H | [e H]].
  - now rewrite guarded_val, H.
  - rewrite (guarded_exc _ _ _ H), H. simpl.
    now destruct (negb (dry_run args) && _).
Qed.

Lemma guarded_included_files root s0 :
  included_files (final (guarded normcase args root s0)) =
  included_files (snd (walked normcase args root s0)).
Proof.
  destruct (walked_cases root s0) as [H | [e H]].
  - now rewrite guarded_val.
  - rewrite (guarded_exc _ _ _ H). simpl.
    now destruct (negb (dry_run args) && _).
Qed.

Lemma guarded_calls root s0 :
  calls (final (guarded normcase args root s0)) = calls (snd (walked normcase args root s0)).
Proof.
  destruct (walked_cases root s0) as [H | [e H]].
  - now rewrite guarded_val.
  - rewrite (guarded_exc _ _ _ H). simpl.
    now destruct (negb (dry_run args) && _).
Qed.

Lemma guarded_skip_lines root s0 l :
  is_skip_line l = true ->
  In l (stdout (final (guarded normcase args root s0))) ->
  In l (stdout (snd (walked normcase args root s0))).
Proof.
  intros Hl. destruct (walked_cases root s0) as [H | [e H]].
  - rewrite guarded_val by assumption. simpl. unfold footer.
    rewrite !in_app_iff. intros [Hin | [Hin | Hin]]; [assumption | |].
    + destruct Hin as [<- | [<- | []]]; discriminate.
    + destruct (dry_run args); simpl in Hin.
      * destruct Hin as [<- | Hin]; [discriminate |].
        apply in_app_iff in Hin as [Hin | [<- | []]]; [| discriminate].
        apply in_map_iff in Hin as [f [<- _]]. discriminate.
      * destruct Hin as [<- | []]. discriminate.
  - rewrite (guarded_exc _ _ _ H). simpl.
    destruct (negb (dry_run args) && _); simpl; rewrite ?in_app_iff; simpl.
    + intros [[Hin | [<- | []]] | [<- | []]]; [assumption | discriminate ..].
    + intros [Hin | [<- | []]]; [assumption | discriminate].
Qed.


(** The paths a run includes are accepted files the walk reaches. *)
Lemma walked_included_sound root s0 r :
  In r (included_files (snd (walked normcase args root s0))) ->
  In r (included_files s0) \/
  exists pf, In pf (reached root) /\ accepted normcase args pf = true /\ r = rel pf.
Proof.
  unfold walked.
  destruct (for_each_included normcase args (reached root) s0)
    as (l1 & l2 & Heq & -> & _).
  rewrite in_app_iff. intros [H | H]; [now left | right].
  assert (Hin : In r (map rel (filter (accepted normcase args) (reached root)))).
  { rewrite Heq, in_app_iff. now left. }
  apply in_map_iff in Hin as [pf [<- Hpf]].
  apply filter_In in Hpf as [Hpf Hacc]. now exists pf.
Qed.

(** When the walk runs to its end they are all the accepted files. *)
Lemma walked_included_val root s0 :
  fst (walked normcase args root s0) = Val tt ->
  included_files (snd (walked normcase args root s0)) =
  included_files s0 ++ map rel (filter (accepted normcase args) (reached root)).
Proof.
  unfold walked. intros Hv.
  destruct (for_each_included normcase args (reached root) s0)
    as (l1 & l2 & Heq & -> & Hl2).
  rewrite (Hl2 _ Hv), app_nil_r in Heq. now rewrite Heq.
Qed.

Lemma walked_fit root s0 :
  dry_run args = true \/ writable root = true ->
  fst (walked normcase args root s0) = Val tt.
Proof.
  intros [Hdry | Hw].
  - now destruct (for_each_dry normcase args (reached root) Hdry s0).
  - apply for_each_val. intros pf Hin Hs.
    unfold writable in Hw. rewrite forallb_forall in Hw.
    unfold reached in Hin. apply filter_In in Hin as [Hin _].
    specialize (Hw _ Hin). unfold has_size in Hs.
    destruct (st_size (snd pf)); [assumption | discriminate].
Qed.

End Run.

(** The four ways a run goes. *)
Lemma make_build_cases normcase args env :
  (is_dir (source env) = false /\
   make_build normcase args env =
   mkRun (SysExit 1) None false None
         (mkState [] None [L_not_found (kodi args); L_hint] [])) \/
  (is_dir (source env) = true /\ mkdir_ok env = false /\
   make_build normcase args env =
   mkRun (Raised (OSError (out args))) None false None
         (mkState [] None [] [])) \/
  (is_dir (source env) = true /\ mkdir_ok env = true /\
   dry_run args = false /\ zip_open_ok env = false /\
   make_build normcase args env =
   mkRun (Raised (OSError (out args))) None true None
         (mkState [] None (banner args) [])) \/
  (exists root,
     source env = Some root /\ is_dir (source env) = true /\
     mkdir_ok env = true /\
     (dry_run args = true \/ zip_open_ok env = true) /\
     make_build normcase args env =
     guarded normcase args (seen args root) (start args)).
Proof.
  unfold make_build, start, seen.
  destruct (source env) as [[f | entries | f] |]; simpl; auto.
  destruct (mkdir_ok env); [| auto 10].
  destruct (dry_run args); [do 3 right; eauto 10 |].
  destruct (zip_open_ok env); [do 3 right; eauto 10 | auto 10].
Qed.

Lemma reached_seen_dry args root :
  dry_run args = true -> reached (seen args root) = reached root.
Proof.
  intros Hdry. unfold reached, seen. rewrite Hdry. simpl negb.
  now rewrite all_files_listed_false.
Qed.

Lemma all_files_seen args root pf :
  In pf (all_files [] root) -> In pf (all_files [] (seen args root)).
Proof. apply all_files_listed. Qed.

Lemma wf_seen args root : wf_node root = true -> wf_node (seen args root) = true.
Proof. apply wf_listed. Qed.

(** ** What a run includes, calls and prints *)

Lemma in_all_files_is_dir env root pf :
  source env = Some root -> In pf (all_files [] root) ->
  is_dir (source env) = true.
Proof.
  intros -> Hin. destruct root; [destruct Hin | reflexivity | destruct Hin].
Qed.

Lemma in_reached root pf :
  In pf (reached root) <-> In pf (all_files [] root) /\ allowed (fst pf) = true.
Proof. apply filter_In. Qed.

Lemma size_ok_iff args f :
  size_ok args f = true <->
  exists file_size,
    st_size f = Some file_size /\
    (ceiling_disabled args = true \/ file_size <= skip_large args).
Proof.
  unfold size_ok, too_large, ceiling_disabled.
  destruct (st_size f) as [z |].
  - rewrite negb_true_iff, andb_false_iff, !Z.ltb_ge. split.
    + intros H. exists z. split; [reflexivity |].
      destruct H; [left; now apply Z.leb_le | now right].
    + intros [z' [Hz H]]. injection Hz as <-.
      destruct H as [H | H]; [left; now apply Z.leb_le | now right].
  - split; [discriminate | intros [z [H _]]; discriminate].
Qed.

Lemma oversized_iff args f :
  oversized args f = true <->
  exists file_size,
    st_size f = Some file_size /\ 0 < skip_large args < file_size.
Proof.
  unfold oversized, too_large.
  destruct (st_size f) as [z |].
  - rewrite andb_true_iff, !Z.ltb_lt. split.
    + intros H. now exists z.
    + intros [z' [Hz H]]. now injection Hz as <-.
  - split; [discriminate | intros [z [H _]]; discriminate].
Qed.

Lemma should_exclude_iff normcase rel_posix :
  should_exclude normcase rel_posix = true <->
  exists pattern,
    In pattern EXCLUDE_PATTERNS /\ fnmatch normcase rel_posix pattern = true.
Proof.
  unfold should_exclude. induction EXCLUDE_PATTERNS as [| pat pats IH]; simpl.
  - split; [discriminate | intros [pat [[] _]]].
  - destruct (fnmatch normcase rel_posix pat) eqn:Hm.
    + split; [| reflexivity]. intros _. exists pat. auto.
    + rewrite IH. split.
      * intros [q [Hq Hf]]. exists q. auto.
      * intros [q [[<- | Hq] Hf]]; [congruence | now exists q].
Qed.

Lemma call_for_same p p' c :
  call_for p c -> call_for p' c -> as_posix p = as_posix p'.
Proof.
  unfold call_for. intros [-> | [-> | ->]] [H | [H | H]];
    try discriminate; injection H; congruence.
Qed.

Section Facts.

Variable normcase : string -> string.
Variable args : Args.

Local Abbreviation step := (visit normcase args).
Local Abbreviation rel := (fun pf : path * file => as_posix (fst pf)).

Lemma for_each_stdout xs :
  forall s l,
    In l (stdout (snd (for_each xs step s))) ->
    In l (stdout s) \/
    exists pf, In pf xs /\ dry_run args = true /\
               skipped_large normcase args pf = true /\ l = skip_line pf.
Proof.
  induction xs as [| x xs IH]; intros s l Hl.
  - now left.
  - rewrite for_each_cons in Hl.
    assert (Hx : In l (stdout (snd (step x s))) ->
                 In l (stdout s) \/
                 exists pf, In pf (x :: xs) /\ dry_run args = true /\
                            skipped_large normcase args pf = true /\ l = skip_line pf).
    { rewrite visit_stdout, in_app_iff. intros [H | H]; [now left | right].
      destruct (dry_run args); [| destruct H].
      destruct (skipped_large normcase args x) eqn:Hs; [| destruct H].
      destruct H as [<- | []]. exists x. simpl. auto. }
    destruct (fst (step x s)); [| now apply Hx].
    apply IH in Hl as [Hl | (pf & Hin & H)]; [now apply Hx |].
    right. exists pf. split; [now right | assumption].
Qed.

Lemma for_each_stdout_grows xs :
  forall s l, In l (stdout s) -> In l (stdout (snd (for_each xs step s))).
Proof.
  induction xs as [| x xs IH]; intros s l Hl.
  - assumption.
  - rewrite for_each_cons.
    assert (Hx : In l (stdout (snd (step x s)))).
    { rewrite visit_stdout, in_app_iff. now left. }
    destruct (fst (step x s)); [now apply IH | assumption].
Qed.

Lemma guarded_stdout_grows root s0 l :
  In l (stdout (snd (walked normcase args root s0))) ->
  In l (stdout (final (guarded normcase args root s0))).
Proof.
  intros Hl. destruct (walked_cases normcase args root s0) as [H | [e H]].
  - rewrite guarded_val by assumption. simpl. rewrite in_app_iff. now left.
  - rewrite (guarded_exc _ _ _ _ _ H). simpl.
    destruct (negb (dry_run args) && _); simpl; rewrite !in_app_iff; auto.
Qed.

(** Whatever way a run ends, a path in [included_files] is the path of an
    accepted file that the walk reaches. *)
Lemma run_included_sound env r :
  In r (included_files (final (make_build normcase args env))) ->
  exists root pf,
    source env = Some root /\ In pf (reached (seen args root)) /\
    accepted normcase args pf = true /\ r = rel pf.
Proof.
  destruct (make_build_cases normcase args env)
    as [[_ ->] | [(_ & _ & ->) | [(_ & _ & _ & _ & ->) | (root & Hs & _ & _ & _ & ->)]]];
    try (intros []).
  rewrite guarded_included_files. intros H.
  apply walked_included_sound in H as [[] | (pf & H)].
  exists root, pf. tauto.
Qed.

(** A call of the run is a call for a file that the walk reaches. *)
Lemma run_calls_sound env c :
  In c (calls (final (make_build normcase args env))) ->
  exists root pf,
    source env = Some root /\ In pf (reached (seen args root)) /\ call_for (fst pf) c.
Proof.
  destruct (make_build_cases normcase args env)
    as [[_ ->] | [(_ & _ & ->) | [(_ & _ & _ & _ & ->) | (root & Hs & _ & _ & _ & ->)]]];
    try (intros []).
  rewrite guarded_calls. unfold walked. intros H.
  apply for_each_calls in H as [[] | (pf & H)].
  exists root, pf. tauto.
Qed.

(** A line for an oversized file is printed in a dry run only, for a file
    that the walk reaches, that no pattern excludes and whose size exceeds
    a positive ceiling. *)
Lemma run_skip_lines_sound env r z :
  In (L_skipped_large r z) (stdout (final (make_build normcase args env))) ->
  exists root pf,
    source env = Some root /\ In pf (reached (seen args root)) /\ dry_run args = true /\
    skipped_large normcase args pf = true /\
    r = rel pf /\ st_size (snd pf) = Some z.
Proof.
  destruct (make_build_cases normcase args env)
    as [[_ ->] | [(_ & _ & ->) | [(_ & _ & _ & _ & ->) | (root & Hs & _ & _ & _ & ->)]]].
  - simpl. intros [H | [H | []]]; discriminate.
  - intros [].
  - simpl. intuition discriminate.
  - intros H. apply guarded_skip_lines in H; [| reflexivity].
    unfold walked in H. apply for_each_stdout in H as [H | (pf & Hin & Hd & Hsk & Hl)].
    + simpl in H. destruct (dry_run args); simpl in H; intuition discriminate.
    + exists root, pf. repeat split; try assumption.
      * unfold skip_line in Hl. now injection Hl.
      * unfold skip_line in Hl. injection Hl as _ ->.
        unfold skipped_large, oversized in Hsk.
        destruct (st_size (snd pf)); [reflexivity |].
        now rewrite andb_false_r in Hsk.
Qed.

Lemma selection_reached root :
  selection normcase args root =
  map rel (filter (accepted normcase args) (reached root)).
Proof.
  unfold selection, reached. f_equal.
  generalize (all_files [] root). intros l.
  induction l as [| x l IH]; simpl; [reflexivity |].
  destruct (allowed (fst x)); simpl; [| assumption].
  destruct (accepted normcase args x); simpl; [now rewrite IH | assumption].
Qed.

(** A run that returns without having caught an exception includes the
    selection, in the order of the walk. *)
Lemma run_completed env root :
  source env = Some root ->
  ended (make_build normcase args env) = Returned ->
  caught (make_build normcase args env) = None ->
  included_files (final (make_build normcase args env)) =
    selection normcase args (seen args root).
Proof.
  intros Hs.
  destruct (make_build_cases normcase args env)
    as [[_ ->] | [(_ & _ & ->) | [(_ & _ & _ & _ & ->) | (root' & Hs' & _ & _ & _ & ->)]]];
    try discriminate.
  assert (root' = root) by congruence. subst root'.
  intros _. rewrite guarded_caught, guarded_included_files.
  destruct (fst (walked normcase args (seen args root) (start args))) as [[] |] eqn:Hv;
    [| discriminate].
  intros _. rewrite (walked_included_val _ _ _ _ Hv), selection_reached.
  reflexivity.
Qed.

(** A run that is fit returns without having caught an exception. *)
Lemma run_fit env root :
  source env = Some root -> is_dir (source env) = true ->
  fit args env (seen args root) = true ->
  ended (make_build normcase args env) = Returned /\
  caught (make_build normcase args env) = None.
Proof.
  intros Hs Hd Hfit. unfold fit in Hfit.
  apply andb_true_iff in Hfit as [Hm Hfit].
  destruct (make_build_cases normcase args env)
    as [[H _] | [(_ & H & _) | [(_ & _ & H1 & H2 & _) | (root' & Hs' & _ & _ & _ & ->)]]];
    try congruence.
  { rewrite H1, H2 in Hfit. discriminate. }
  assert (root' = root) by congruence. subst root'.
  assert (Hv : fst (walked normcase args (seen args root) (start args)) = Val tt).
  { apply walked_fit. apply orb_true_iff in Hfit as [H | H]; [now left |].
    apply andb_true_iff in H. tauto. }
  rewrite guarded_ended, guarded_caught, Hv. split; reflexivity.
Qed.

End Facts.

Lemma reached_same_path root p f pf :
  wf_node root = true ->
  In (p, f) (all_files [] root) -> In pf (reached root) ->
  as_posix (fst pf) = as_posix p ->
  pf = (p, f) /\ allowed p = true.
Proof.
  intros Hwf Hin Hr Heq. destruct pf as [p' f'].
  apply in_reached in Hr as [Hin' Ha]. simpl in *.
  destruct (rel_path_names_one_file root p f p' f' Hwf Hin Hin' Heq) as [-> ->].
  auto.
Qed.

Lemma seen_same_path args root p f pf :
  wf_node root = true ->
  In (p, f) (all_files [] root) -> In pf (reached (seen args root)) ->
  as_posix (fst pf) = as_posix p ->
  pf = (p, f) /\ allowed p = true.
Proof.
  intros Hwf Hin Hr Heq.
  apply (reached_same_path (seen args root));
    [now apply wf_seen | now apply all_files_seen | assumption | assumption].
Qed.

(** With the ceiling off, a run that returns without having caught an
    exception includes every file the walk reaches that no pattern excludes
    and whose size can be read, and no run prints a line for an oversized
    file. *)
Lemma ceiling_off normcase args env root :
  source env = Some root ->
  ceiling_disabled args = true ->
  ended (make_build normcase args env) = Returned ->
  caught (make_build normcase args env) = None ->
  (forall p f file_size,
     In (p, f) (all_files [] root) -> st_size f = Some file_size ->
     allowed p = true -> should_exclude normcase (as_posix p) = false ->
     In (as_posix p) (included_files (final (make_build normcase args env)))) /\
  (forall l, In l (stdout (final (make_build normcase args env))) ->
             is_skip_line l = false).
Proof.
  intros Hs Hoff He Hc. split.
  - intros p f z Hin Hz Ha Hx.
    rewrite (run_completed normcase args env root Hs He Hc).
    unfold selection. apply in_map_iff. exists (p, f). split; [reflexivity |].
    apply filter_In. split; [now apply all_files_seen |]. simpl. rewrite Ha.
    unfold accepted. simpl. rewrite Hx. simpl.
    apply size_ok_iff. exists z. auto.
  - intros l Hl. destruct l; try reflexivity. exfalso.
    apply run_skip_lines_sound in Hl as (r & pf & _ & _ & _ & Hsk & _).
    unfold skipped_large in Hsk. apply andb_true_iff in Hsk as [_ Hsk].
    apply oversized_iff in Hsk as (z & _ & Hz & _).
    unfold ceiling_disabled in Hoff. apply Z.leb_le in Hoff. lia.
Qed.

(** ** Trees without the files whose size cannot be read *)

Lemma all_files_drop n :
  forall top,
    all_files top (drop_unstatable n) = filter has_size (all_files top n).
Proof.
  induction n as [f | f | entries IH] using node_induction; intros top.
  - reflexivity.
  - reflexivity.
  - change (drop_unstatable (Dir entries))
      with (Dir (drop_entries drop_unstatable entries)).
    rewrite !all_files_Dir, filter_app, filter_flat_map. f_equal.
    + clear IH. induction entries as [| [nm [f | sub | f]] es IHes]; simpl.
      * reflexivity.
      * unfold has_size at 1. simpl.
        destruct (st_size f); simpl; now rewrite IHes.
      * exact IHes.
      * destruct (st_size f); simpl; exact IHes.
    + induction IH as [| [nm [f | sub | f]] es Hsub _ IHes]; simpl.
      * reflexivity.
      * destruct (st_size f); simpl; exact IHes.
      * simpl in Hsub. rewrite <- Hsub, IHes. reflexivity.
      * destruct (st_size f); simpl; exact IHes.
Qed.

Lemma filter_comm {A} (p q : A -> bool) (l : list A) :
  filter p (filter q l) = filter q (filter p l).
Proof.
  induction l as [| x l IH]; simpl; [reflexivity |].
  destruct (p x) eqn:Hp, (q x) eqn:Hq; simpl; rewrite ?Hp, ?Hq, IH; reflexivity.
Qed.

Lemma reached_drop root :
  reached (drop_unstatable root) = filter has_size (reached root).
Proof.
  unfold reached. rewrite all_files_drop. apply filter_comm.
Qed.

Lemma is_dir_drop root :
  is_dir (Some (drop_unstatable root)) = is_dir (Some root).
Proof. destruct root; reflexivity. Qed.

Section Same.

Variable normcase : string -> string.
Variable args : Args.

Lemma walked_drop root s0 :
  fst (walked normcase args root s0) =
    fst (walked normcase args (drop_unstatable root) s0) /\
  same_effects (snd (walked normcase args root s0))
               (snd (walked normcase args (drop_unstatable root) s0)).
Proof.
  unfold walked. rewrite reached_drop. apply for_each_unstatable.
  unfold same_effects. auto.
Qed.

Lemma guarded_same root root' s0 :
  fst (walked normcase args root s0) = fst (walked normcase args root' s0) ->
  same_effects (snd (walked normcase args root s0))
               (snd (walked normcase args root' s0)) ->
  ended (guarded normcase args root s0) = ended (guarded normcase args root' s0) /\
  caught (guarded normcase args root s0) = caught (guarded normcase args root' s0) /\
  archive (guarded normcase args root s0) = archive (guarded normcase args root' s0) /\
  same_effects (final (guarded normcase args root s0))
               (final (guarded normcase args root' s0)).
Proof.
  intros Hr (Hi & Hz & Ho).
  destruct (walked_cases normcase args root s0) as [H | [e H]].
  - rewrite (guarded_val _ _ _ _ H), (guarded_val _ _ root' s0) by congruence.
    unfold same_effects. simpl. rewrite Hi, Hz, Ho. repeat split.
  - assert (H' : fst (walked normcase args root' s0) = Exc e) by congruence.
    rewrite (guarded_exc _ _ _ _ _ H), (guarded_exc _ _ _ _ _ H').
    unfold same_effects, say, zip_path_exists. simpl. rewrite Hi, Hz, Ho.
    destruct (negb (dry_run args) && _); simpl; repeat split.
Qed.

Lemma guarded_val_out_dir root s0 :
  out_dir_made (guarded normcase args root s0) = true.
Proof.
  destruct (walked_cases normcase args root s0) as [H | [e H]].
  - now rewrite guarded_val.
  - rewrite (guarded_exc _ _ _ _ _ H). simpl.
    now destruct (negb (dry_run args) && _).
Qed.

(** A run on the tree and a run on the tree without the files whose size
    cannot be read end alike and leave the same effects. *)
Lemma run_drop env root :
  source env = Some root ->
  let run := make_build normcase args env in
  let run' := make_build normcase args
                (mkEnv (Some (drop_unstatable root)) (mkdir_ok env) (zip_open_ok env)) in
  ended run = ended run' /\ caught run = caught run' /\
  archive run = archive run' /\ out_dir_made run = out_dir_made run' /\
  same_effects (final run) (final run').
Proof.
  intros Hs. unfold make_build. rewrite Hs. simpl source. simpl mkdir_ok.
  simpl zip_open_ok.
  destruct root as [f | entries | f]; [repeat split | | repeat split].
  change (drop_unstatable (Dir entries))
    with (Dir (drop_entries drop_unstatable entries)).
  destruct (mkdir_ok env); [| repeat split].
  change (Dir (drop_entries drop_unstatable entries))
    with (drop_unstatable (Dir entries)).
  destruct (dry_run args).
  - rewrite listed_drop.
    destruct (walked_drop (listed false (Dir entries))
                          (mkState [] None (banner args) []))
      as [Hr Hse].
    destruct (guarded_same _ _ _ Hr Hse) as (A & B & C & D).
    split; [exact A | split; [exact B | split; [exact C | split; [| exact D]]]].
    rewrite !guarded_val_out_dir. reflexivity.
  - destruct (zip_open_ok env); [| repeat split].
    rewrite listed_drop.
    destruct (walked_drop (listed true (Dir entries))
                          (mkState [] (Some []) (banner args) []))
      as [Hr Hse].
    destruct (guarded_same _ _ _ Hr Hse) as (A & B & C & D).
    split; [exact A | split; [exact B | split; [exact C | split; [| exact D]]]].
    rewrite !guarded_val_out_dir. reflexivity.
Qed.

End Same.



Lemma accepted_with_dry_run normcase b args pf :
  accepted normcase (with_dry_run b args) pf = accepted normcase args pf.
Proof. reflexivity. Qed.

(** A dry run on a directory, once the output directory is made: it
    returns, leaves no archive, includes the selection and prints it. *)
Lemma run_dry normcase args env root :
  source env = Some root -> is_dir (source env) = true ->
  mkdir_ok env = true -> dry_run args = true ->
  let run := make_build normcase args env in
  caught run = None /\ archive run = None /\
  included_files (final run) =
    map (fun pf => as_posix (fst pf))
        (filter (accepted normcase args) (reached root)) /\
  stdout (final run) =
    banner args ++
    map skip_line (filter (skipped_large normcase args) (reached root)) ++
    footer args (included_files (final run)).
Proof.
  intros Hs Hd Hm Hdry run. subst run.
  destruct (make_build_cases normcase args env)
    as [[H _] | [(_ & H & _) | [(_ & _ & H & _) | (root' & Hs' & _ & _ & _ & ->)]]];
    try congruence.
  assert (root' = root) by congruence. subst root'.
  destruct (for_each_dry normcase args (reached (seen args root)) Hdry (start args))
    as (Hv & Ho & Hz).
  fold (walked normcase args (seen args root) (start args)) in Hv, Ho, Hz.
  rewrite (reached_seen_dry args root Hdry) in Ho.
  rewrite guarded_caught, Hv, (guarded_val _ _ _ _ Hv).
  cbn [archive final included_files stdout].
  split; [reflexivity |]. split; [| split].
  - assert (H0 : zip_path_exists (start args) = false).
    { unfold start. now rewrite Hdry. }
    rewrite H0 in Hz. unfold zip_path_exists in Hz.
    destruct (zip_file (snd (walked normcase args (seen args root) (start args))));
      [discriminate | reflexivity].
  - now rewrite (walked_included_val _ _ _ _ Hv), (reached_seen_dry args root Hdry).
  - rewrite Ho. unfold start. cbn [stdout]. now rewrite <- app_assoc.
Qed.




(* ================================================================== *)
(** * The claims *)



(** C2, as amended. With a positive size ceiling, a file under [userdata]
    or [addons] that no pattern excludes and whose size exceeds the ceiling
    is not in [included_files]; in a dry run that gets to its walk, a
    [Skipped Large] line with its relative path and its size is printed. *)
Theorem C2_oversized_absent_and_previewed normcase args env root p f file_size :
  source env = Some root ->
  wf_node root = true ->
  In (p, f) (all_files [] root) ->
  allowed p = true ->
  should_exclude normcase (as_posix p) = false ->
  st_size f = Some file_size ->
  0 < skip_large args ->
  skip_large args < file_size ->
  let run := make_build normcase args env in
  ~ In (as_posix p) (included_files (final run)) /\
  (dry_run args = true -> mkdir_ok env = true ->
   In (L_skipped_large (as_posix p) file_size) (stdout (final run))).
Proof.
  intros Hs Hwf Hin Ha Hx Hst Hpos Hbig run. subst run. split.
  - intros H. apply run_included_sound in H as (root' & pf & Hs' & Hr & Hacc & Heq).
    assert (root' = root) by congruence. subst root'.
    destruct (seen_same_path args root p f pf Hwf Hin Hr) as [-> _]; [congruence |].
    unfold accepted in Hacc. apply andb_true_iff in Hacc as [_ Hok].
    apply size_ok_iff in Hok as (z & Hz & Hok). simpl in Hz.
    assert (z = file_size) by congruence. subst z.
    unfold ceiling_disabled in Hok. rewrite Z.leb_le in Hok. lia.
  - intros Hdry Hm.
    pose proof (in_all_files_is_dir _ _ _ Hs Hin) as Hd.
    destruct (run_dry normcase args env root Hs Hd Hm Hdry) as (_ & _ & _ & ->).
    rewrite !in_app_iff. right. left. apply in_map_iff. exists (p, f). split.
    + unfold skip_line. simpl. now rewrite Hst.
    + apply filter_In. split; [now apply in_reached |].
      unfold skipped_large. simpl. rewrite Hx. simpl.
      apply oversized_iff. exists file_size. auto.
Qed.

Lemma C2_huge_bin_previewed :
  ~ In "userdata/huge.bin"%string
       (included_files
          (final (make_build posix_normcase (sample_args true 100) (on_tree sample_tree)))) /\
  In (L_skipped_large "userdata/huge.bin" 200)
     (stdout
        (final (make_build posix_normcase (sample_args true 100) (on_tree sample_tree)))).
Proof.
  assert (Hin : In (["userdata"; "huge.bin"]%string, mkFile (Some 200) true)
                   (all_files [] sample_tree)) by (simpl; auto 10).
  destruct (C2_oversized_absent_and_previewed posix_normcase (sample_args true 100)
              (on_tree sample_tree) sample_tree _ _ 200
              eq_refl eq_refl Hin eq_refl eq_refl eq_refl)
    as [Habsent Hline]; [simpl; lia | simpl; lia |].
  split; [exact Habsent | apply Hline; reflexivity].
Defined.

(** C2 as stated fails on the code. With the ceiling -1, which is not
    zero, the file of 200 bytes exceeds the ceiling and is included. With
    the ceiling 100 in a normal run, the file of 200 bytes is left out and
    nothing of the run records it: no line is printed for it, and the run
    returns with an archive of no member. *)
Lemma C2_counterexample :
  (skip_large (sample_args false (-1)) <> 0 /\
   skip_large (sample_args false (-1)) < 200 /\
   included_files
     (final (make_build posix_normcase (sample_args false (-1)) (on_tree huge_tree))) =
   ["userdata/huge.bin"%string]) /\
  (skip_large (sample_args false 100) <> 0 /\
   skip_large (sample_args false 100) < 200 /\
   make_build posix_normcase (sample_args false 100) (on_tree huge_tree) =
   mkRun Returned None true (Some [])
         (mkState [] (Some [])
                  [L_rule; L_source "kodi"; L_output false; L_max_size 100; L_rule;
                   L_rule; L_total 0; L_success]
                  [Call_should_exclude "userdata/huge.bin";
                   Call_stat ["userdata"; "huge.bin"]%string])).
Proof.
  split; (split; [discriminate | split; [reflexivity | reflexivity]]).
Qed.




(** C4. A file under a top-level directory that is not [userdata] or
    [addons], or directly in the root, is never in [included_files]; the
    run never calls [should_exclude], [stat] or the archive for it, and
    prints no oversized line for it, whatever the size ceiling, the mode and
    the other files are. *)
Theorem C4_pruned_never_visited normcase args env root p f :
  source env = Some root ->
  wf_node root = true ->
  In (p, f) (all_files [] root) ->
  allowed p = false ->
  let run := make_build normcase args env in
  ~ In (as_posix p) (included_files (final run)) /\
  (forall c, In c (calls (final run)) -> ~ call_for p c) /\
  (forall file_size,
     ~ In (L_skipped_large (as_posix p) file_size) (stdout (final run))).
Proof.
  intros Hs Hwf Hin Hna run. subst run. repeat split.
  - intros H. apply run_included_sound in H as (root' & pf & Hs' & Hr & _ & Heq).
    assert (root' = root) by congruence. subst root'.
    destruct (seen_same_path args root p f pf Hwf Hin Hr) as [_ Ha]; congruence.
  - intros c Hc Hcf.
    apply run_calls_sound in Hc as (root' & pf & Hs' & Hr & Hcf').
    assert (root' = root) by congruence. subst root'.
    pose proof (call_for_same _ _ _ Hcf' Hcf) as Heq.
    destruct (seen_same_path args root p f pf Hwf Hin Hr Heq) as [_ Ha]; congruence.
  - intros z H.
    apply run_skip_lines_sound in H as (root' & pf & Hs' & Hr & _ & _ & Heq & _).
    assert (root' = root) by congruence. subst root'.
    destruct (seen_same_path args root p f pf Hwf Hin Hr) as [_ Ha]; congruence.
Qed.

Lemma C4_secret_txt_never_visited :
  ~ In "denied/secret.txt"%string
       (included_files
          (final (make_build posix_normcase (sample_args false 0) (on_tree sample_tree)))) /\
  ~ In (Call_stat ["denied"; "secret.txt"]%string)
       (calls (final (make_build posix_normcase (sample_args false 0) (on_tree sample_tree)))).
Proof.
  assert (Hin : In (["denied"; "secret.txt"]%string, mkFile (Some 10) true)
                   (all_files [] sample_tree)) by (simpl; auto 10).
  destruct (C4_pruned_never_visited posix_normcase (sample_args false 0)
              (on_tree sample_tree) sample_tree _ _ eq_refl eq_refl Hin eq_refl)
    as (Hinc & Hcalls & _).
  split; [exact Hinc |]. intros Hc. apply (Hcalls _ Hc). right. left. reflexivity.
Defined.

(** C5. A relative path that some pattern of [EXCLUDE_PATTERNS] matches
    under [fnmatch] is never in [included_files], wherever the file lies
    and whatever its size. *)
Theorem C5_excluded_never_included normcase args env rel_posix :
  (exists pattern,
     In pattern EXCLUDE_PATTERNS /\ fnmatch normcase rel_posix pattern = true) ->
  ~ In rel_posix (included_files (final (make_build normcase args env))).
Proof.
  intros Hm Hin. apply should_exclude_iff in Hm.
  apply run_included_sound in Hin as (root & pf & _ & _ & Hacc & ->).
  unfold accepted in Hacc. rewrite Hm in Hacc. discriminate.
Qed.

Lemma C5_thumbnail_never_included :
  ~ In "userdata/Thumbnails/x.tmp"%string
       (included_files
          (final (make_build posix_normcase (sample_args false 0) (on_tree sample_tree)))).
Proof.
  apply C5_excluded_never_included.
  exists "userdata/Thumbnails/*"%string. split; [simpl; auto | reflexivity].
Defined.

(** C6. When the Kodi path is missing or is not a directory, the run
    prints the error and ends with [sys.exit(1)]: no output directory is
    made, no archive exists, [included_files] is empty and nothing was
    opened or visited. *)
Theorem C6_missing_root_aborts normcase args env :
  is_dir (source env) = false ->
  let run := make_build normcase args env in
  ended run = SysExit 1 /\
  caught run = None /\
  out_dir_made run = false /\
  archive run = None /\
  included_files (final run) = [] /\
  zip_file (final run) = None /\
  calls (final run) = [] /\
  stdout (final run) = [L_not_found (kodi args); L_hint].
Proof.
  intros Hd run. subst run. unfold make_build.
  destruct (source env) as [[f | entries | f] |]; simpl in *;
    try discriminate; repeat split.
Qed.

Lemma C6_no_kodi_folder :
  ended (make_build posix_normcase (sample_args false 100) (mkEnv None true true)) =
    SysExit 1 /\
  archive (make_build posix_normcase (sample_args false 100) (mkEnv None true true)) = None.
Proof.
  destruct (C6_missing_root_aborts posix_normcase (sample_args false 100)
              (mkEnv None true true) eq_refl)
    as (He & _ & _ & Ha & _).
  split; [exact He | exact Ha].
Defined.

(** C7. With a size ceiling of 0 no file is skipped for its size: a run
    that returns without having caught an exception includes every file
    under [userdata] or [addons] that no pattern excludes, whatever its
    size, and no oversized line is printed. *)
Theorem C7_zero_ceiling_no_size_skip normcase args env root :
  source env = Some root ->
  skip_large args = 0 ->
  let run := make_build normcase args env in
  ended run = Returned ->
  caught run = None ->
  (forall p f file_size,
     In (p, f) (all_files [] root) -> st_size f = Some file_size ->
     allowed p = true -> should_exclude normcase (as_posix p) = false ->
     In (as_posix p) (included_files (final run))) /\
  (forall l, In l (stdout (final run)) -> is_skip_line l = false).
Proof.
  intros Hs Hz run He Hc. subst run. apply ceiling_off; try assumption.
  unfold ceiling_disabled. now rewrite Hz.
Qed.

Lemma C7_huge_bin_included :
  In "userdata/huge.bin"%string
     (included_files
        (final (make_build posix_normcase (sample_args false 0) (on_tree sample_tree)))).
Proof.
  destruct (C7_zero_ceiling_no_size_skip posix_normcase (sample_args false 0)
              (on_tree sample_tree) sample_tree eq_refl eq_refl eq_refl eq_refl)
    as [H _].
  apply (H ["userdata"; "huge.bin"]%string (mkFile (Some 200) true) 200);
    [simpl; auto 10 | reflexivity ..].
Defined.




(** C9. A file whose size cannot be read is not in [included_files] and
    has no oversized line; the run ends as the run on the tree without such
    files does, with the same exception caught or none, the same archive,
    the same included paths and the same output. *)
Theorem C9_stat_failure_dropped normcase args env root p f :
  source env = Some root ->
  wf_node root = true ->
  In (p, f) (all_files [] root) ->
  st_size f = None ->
  let run := make_build normcase args env in
  let run' := make_build normcase args
                (mkEnv (Some (drop_unstatable root)) (mkdir_ok env) (zip_open_ok env)) in
  ~ In (as_posix p) (included_files (final run)) /\
  (forall file_size,
     ~ In (L_skipped_large (as_posix p) file_size) (stdout (final run))) /\
  ended run = ended run' /\ caught run = caught run' /\
  archive run = archive run' /\ out_dir_made run = out_dir_made run' /\
  same_effects (final run) (final run').
Proof.
  intros Hs Hwf Hin Hst run run'. subst run run'.
  split; [| split; [| now apply run_drop]].
  - intros H. apply run_included_sound in H as (root' & pf & Hs' & Hr & Hacc & Heq).
    assert (root' = root) by congruence. subst root'.
    destruct (seen_same_path args root p f pf Hwf Hin Hr) as [-> _]; [congruence |].
    unfold accepted, size_ok in Hacc. simpl in Hacc. rewrite Hst in Hacc.
    now rewrite andb_false_r in Hacc.
  - intros z H.
    apply run_skip_lines_sound in H as (root' & pf & Hs' & Hr & _ & _ & Heq & Hz).
    assert (root' = root) by congruence. subst root'.
    destruct (seen_same_path args root p f pf Hwf Hin Hr) as [-> _]; [congruence |].
    simpl in Hz. congruence.
Qed.

Lemma C9_broken_dropped :
  ~ In "userdata/broken"%string
       (included_files
          (final (make_build posix_normcase (sample_args false 100) (on_tree sample_tree)))) /\
  archive (make_build posix_normcase (sample_args false 100) (on_tree sample_tree)) =
  archive (make_build posix_normcase (sample_args false 100)
                      (on_tree (drop_unstatable sample_tree))).
Proof.
  assert (Hin : In (["userdata"; "broken"]%string, mkFile None true)
                   (all_files [] sample_tree)) by (simpl; auto 10).
  destruct (C9_stat_failure_dropped posix_normcase (sample_args false 100)
              (on_tree sample_tree) sample_tree _ _ eq_refl eq_refl Hin eq_refl)
    as (Hinc & _ & _ & _ & Ha & _).
  split; [exact Hinc | exact Ha].
Defined.

(** C10. A size ceiling that is zero or negative is off: a run that
    returns without having caught an exception includes every file under
    [userdata] or [addons] that no pattern excludes, whatever its size, and
    no oversized line is printed. *)
Theorem C10_nonpositive_ceiling_disabled normcase args env root :
  source env = Some root ->
  skip_large args <= 0 ->
  let run := make_build normcase args env in
  ended run = Returned ->
  caught run = None ->
  (forall p f file_size,
     In (p, f) (all_files [] root) -> st_size f = Some file_size ->
     allowed p = true -> should_exclude normcase (as_posix p) = false ->
     In (as_posix p) (included_files (final run))) /\
  (forall l, In l (stdout (final run)) -> is_skip_line l = false).
Proof.
  intros Hs Hz run He Hc. subst run. apply ceiling_off; try assumption.
  unfold ceiling_disabled. now apply Z.leb_le.
Qed.

Lemma C10_negative_ceiling_huge_bin_included :
  In "userdata/huge.bin"%string
     (included_files
        (final (make_build posix_normcase (sample_args false (-5)) (on_tree sample_tree)))).
Proof.
  assert (Hle : skip_large (sample_args false (-5)) <= 0) by (simpl; lia).
  destruct (C10_nonpositive_ceiling_disabled posix_normcase (sample_args false (-5))
              (on_tree sample_tree) sample_tree eq_refl Hle eq_refl eq_refl)
    as [H _].
  apply (H ["userdata"; "huge.bin"]%string (mkFile (Some 200) true) 200);
    [simpl; auto 10 | reflexivity ..].
Defined.
